(** * max-algos: EMA crossover signals and the MACD trade simulator

    A shallow embedding of [src/src/ema_signals.py] and
    [src/src/macd_strategy.py].

    Modelling conventions.
    - A price is a Python float.  Finite floats are represented by the
      canonical rationals [Qc]; arithmetic is therefore exact and the
      statements below are about the real-number behaviour of the code.
    - A pandas [DataFrame] is a finite map from column names to columns.
      Numeric columns and label columns (the 'long'/'short'/NA signal
      columns) are kept in two maps, keyed by the column name as the
      f-strings of the source build it.
    - The frame that [MACDStrategy] owns has a fixed set of columns and is
      mutated cell by cell with [df.at[idx, col] = v]; it is represented as
      a list of rows, updated in place by index.
    - Exceptions are values of [Exn] carried by the [result] monad. *)

From stdpp Require Import base numbers list gmap strings pretty.
From Stdlib Require Import QArith Qcanon Lqa.

Local Open Scope Qc_scope.

(** ** Exceptions *)

Inductive Exn : Set :=
  | ValueError
  | RuntimeError
  | KeyError
  | TypeError.

Inductive result (A : Type) : Type :=
  | Ok (a : A)
  | Raise (e : Exn).
Arguments Ok {A} a.
Arguments Raise {A} e.

Global Instance result_ret : MRet result := λ A a, Ok a.
Global Instance result_bind : MBind result := λ A B f m,
  match m with
  | Ok a => f a
  | Raise e => Raise e
  end.

(** [for idx in idxs: s = body(s, idx)], stopping at the first exception. *)
Fixpoint for_each {S : Type} (body : S → nat → result S) (s : S)
    (idxs : list nat) : result S :=
  match idxs with
  | [] => Ok s
  | idx :: rest => s' ← body s idx; for_each body s' rest
  end.

(** ** Numbers *)

Definition num (z : Z) : Qc := Q2Qc (inject_Z z).

(** Nearest integer, ties to the even one. *)
Definition round_half_even (q : Q) : Z :=
  let n := Qnum q in
  let d := Zpos (Qden q) in
  let f := (n `div` d)%Z in
  let r2 := (2 * (n `mod` d))%Z in
  if (r2 <? d)%Z then f
  else if (d <? r2)%Z then (f + 1)%Z
  else if Z.even f then f else (f + 1)%Z.

(** Python's [round(x, ndigits)]. *)
Definition round (x : Qc) (ndigits : nat) : Qc :=
  let scale := num (10 ^ Z.of_nat ndigits) in
  num (round_half_even (this (x * scale))) / scale.

(** ** The pandas operations the source relies on *)

Module pd.

(** [span] to smoothing factor: alpha = 2 / (span + 1). *)
Definition alpha (span : Z) : Qc := num 2 / num (span + 1).

(** The recursion of [ewm(adjust=False).mean()] after the seed:
    y_t = (1 - alpha) * y_{t-1} + alpha * x_t. *)
Fixpoint ewm_go (a y : Qc) (xs : list Qc) : list Qc :=
  match xs with
  | [] => []
  | x :: xs' =>
      let y' := (1 - a) * y + a * x in
      y' :: ewm_go a y' xs'
  end.

(** [xs.ewm(span=span, adjust=False).mean()]: pandas rejects [span < 1]
    with a ValueError when the window is built; otherwise the first value
    seeds the recursion. *)
Definition ewm_mean (span : Z) (xs : list Qc) : result (list Qc) :=
  if bool_decide (span < 1)%Z then Raise ValueError
  else Ok match xs with
          | [] => []
          | x :: xs' => x :: ewm_go (alpha span) x xs'
          end.

(** [xs.shift(1)]: same length, a missing value in front. *)
Definition shift {A : Type} (xs : list A) : list (option A) :=
  take (length xs) (None :: (Some <$> xs)).

(** Element-wise comparisons; a comparison with a missing value is
    False. *)
Definition gt (xs ys : list Qc) : list bool :=
  zip_with (λ x y, bool_decide (y < x)) xs ys.
Definition lt (xs ys : list Qc) : list bool :=
  zip_with (λ x y, bool_decide (x < y)) xs ys.
Definition le_na (xs ys : list (option Qc)) : list bool :=
  zip_with (λ x y, match x, y with
                   | Some a, Some b => bool_decide (a ≤ b)
                   | _, _ => false
                   end) xs ys.
Definition ge_na (xs ys : list (option Qc)) : list bool :=
  zip_with (λ x y, match x, y with
                   | Some a, Some b => bool_decide (b ≤ a)
                   | _, _ => false
                   end) xs ys.
Definition and (xs ys : list bool) : list bool := zip_with andb xs ys.

(** [col.loc[mask] = v]. *)
Definition loc_set {A : Type} (mask : list bool) (v : A) (col : list A)
    : list A :=
  zip_with (λ (m : bool) old, if m then v else old) mask col.

End pd.

(** ** Frames of the signal stage *)

Inductive Side : Set := long | short.

Global Instance Side_eq_dec : EqDecision Side.
Proof. solve_decision. Defined.

Record DataFrame : Type := mkDataFrame {
  floats : gmap string (list Qc);
  labels : gmap string (list (option Side))
}.

Definition columns (data : DataFrame) : gset string :=
  dom (floats data) ∪ dom (labels data).

(** [df[name]] for a column used in arithmetic. *)
Definition get_float (data : DataFrame) (name : string) : result (list Qc) :=
  match floats data !! name with
  | Some col => Ok col
  | None => if bool_decide (name ∈ dom (labels data)) then Raise TypeError
            else Raise KeyError
  end.

Definition set_float (name : string) (col : list Qc) (data : DataFrame)
    : DataFrame :=
  {| floats := <[name := col]> (floats data);
     labels := delete name (labels data) |}.

Definition set_label (name : string) (col : list (option Side))
    (data : DataFrame) : DataFrame :=
  {| floats := delete name (floats data);
     labels := <[name := col]> (labels data) |}.

(** ** ema_signals.py *)

Module EMASignal.

Record t : Type := mk {
  df : DataFrame;
  ema_period : Z
}.

Definition required_cols : gset string :=
  {[ "Open"; "High"; "Low"; "Close" ]}.

Definition ema_col (self : t) : string := "EMA_" +:+ pretty (ema_period self).
Definition sig_col (self : t) : string :=
  "Signal_" +:+ pretty (ema_period self) +:+ "EMA".

Definition init (data : DataFrame) (ema_period : Z) : result t :=
  if bool_decide (required_cols ⊆ columns data)
  then Ok {| df := data; ema_period := ema_period |}
  else Raise ValueError.

Definition calculate_ema (self : t) : result t :=
  close ← get_float (df self) "Close";
  ema ← pd.ewm_mean (ema_period self) close;
  Ok {| df := set_float (ema_col self) ema (df self);
        ema_period := ema_period self |}.

Definition generate_signals (self : t) : result t :=
  if bool_decide (ema_col self ∈ columns (df self)) then
    close ← get_float (df self) "Close";
    ema ← get_float (df self) (ema_col self);
    let prev_close := pd.shift close in
    let prev_ema := pd.shift ema in
    let cross_above := pd.and (pd.gt close ema) (pd.le_na prev_close prev_ema) in
    let cross_below := pd.and (pd.lt close ema) (pd.ge_na prev_close prev_ema) in
    let sig := replicate (length close) None in
    let sig := pd.loc_set cross_above (Some long) sig in
    let sig := pd.loc_set cross_below (Some short) sig in
    Ok {| df := set_label (sig_col self) sig (df self);
          ema_period := ema_period self |}
  else Raise RuntimeError.

Definition get_dataframe (self : t) : DataFrame := df self.

End EMASignal.

Definition process_ema_signals (df : DataFrame) (ema_period : Z)
    : result DataFrame :=
  processor ← EMASignal.init df ema_period;
  processor ← EMASignal.calculate_ema processor;
  processor ← EMASignal.generate_signals processor;
  Ok (EMASignal.get_dataframe processor).

(** ** macd_strategy.py *)

Inductive ExitType : Set := ema_cross | macd.

(** One row of the frame owned by [MACDStrategy].  [raw_sig] is the column
    'Signal_{slow_period}EMA' of the input; [exit_signal] holds the string
    built by [f"exit_{position}"]. *)
Record Row : Type := mkRow {
  Close : Qc;
  raw_sig : option Side;
  entry_signal : option Side;
  exit_signal : option string;
  in_position : bool;
  profit : option Qc;
  exit_type : option ExitType;
  trade_id : option nat;
  MACD : option Qc;
  MACD_signal : option Qc;
  MACD_hist : option Qc
}.

Definition set_entry_signal (v : option Side) (r : Row) : Row :=
  mkRow (Close r) (raw_sig r) v (exit_signal r) (in_position r) (profit r)
        (exit_type r) (trade_id r) (MACD r) (MACD_signal r) (MACD_hist r).
Definition set_exit_signal (v : option string) (r : Row) : Row :=
  mkRow (Close r) (raw_sig r) (entry_signal r) v (in_position r) (profit r)
        (exit_type r) (trade_id r) (MACD r) (MACD_signal r) (MACD_hist r).
Definition set_in_position (v : bool) (r : Row) : Row :=
  mkRow (Close r) (raw_sig r) (entry_signal r) (exit_signal r) v (profit r)
        (exit_type r) (trade_id r) (MACD r) (MACD_signal r) (MACD_hist r).
Definition set_profit (v : option Qc) (r : Row) : Row :=
  mkRow (Close r) (raw_sig r) (entry_signal r) (exit_signal r) (in_position r) v
        (exit_type r) (trade_id r) (MACD r) (MACD_signal r) (MACD_hist r).
Definition set_exit_type (v : option ExitType) (r : Row) : Row :=
  mkRow (Close r) (raw_sig r) (entry_signal r) (exit_signal r) (in_position r)
        (profit r) v (trade_id r) (MACD r) (MACD_signal r) (MACD_hist r).
Definition set_trade_id (v : option nat) (r : Row) : Row :=
  mkRow (Close r) (raw_sig r) (entry_signal r) (exit_signal r) (in_position r)
        (profit r) (exit_type r) v (MACD r) (MACD_signal r) (MACD_hist r).
Definition set_MACD (v : option Qc) (r : Row) : Row :=
  mkRow (Close r) (raw_sig r) (entry_signal r) (exit_signal r) (in_position r)
        (profit r) (exit_type r) (trade_id r) v (MACD_signal r) (MACD_hist r).
Definition set_MACD_signal (v : option Qc) (r : Row) : Row :=
  mkRow (Close r) (raw_sig r) (entry_signal r) (exit_signal r) (in_position r)
        (profit r) (exit_type r) (trade_id r) (MACD r) v (MACD_hist r).
Definition set_MACD_hist (v : option Qc) (r : Row) : Row :=
  mkRow (Close r) (raw_sig r) (entry_signal r) (exit_signal r) (in_position r)
        (profit r) (exit_type r) (trade_id r) (MACD r) (MACD_signal r) v.

(** [df.at[idx, col]] and [df.at[idx, col] = v]. *)
Definition at_get {V : Type} (col : Row → V) (df : list Row) (idx : nat)
    : result V :=
  match df !! idx with
  | Some row => Ok (col row)
  | None => Raise KeyError
  end.
Definition at_set {V : Type} (col : V → Row → Row) (idx : nat) (v : V)
    (df : list Row) : list Row :=
  alter (col v) idx df.

(** [df[col] = series]. *)
Definition assign {V : Type} (col : V → Row → Row) (series : list V)
    (df : list Row) : list Row :=
  zip_with (λ r v, col v r) df series.

(** The local variables of [simulate_trades]. *)
Record Scan : Type := mkScan {
  trade_counter : nat;
  in_trade : bool;
  entry_price : option Qc;
  position : option Side
}.

Definition fmt_position (p : option Side) : string :=
  match p with
  | Some long => "long"
  | Some short => "short"
  | None => "None"
  end.

Module MACDStrategy.

Record t : Type := mk {
  df : list Row;
  fast : Z;
  slow : Z;
  signal : Z;
  pip_size : Qc
}.

Definition raw_sig_name (slow_period : Z) : string :=
  "Signal_" +:+ pretty slow_period +:+ "EMA".

(** The raw signal column as the simulator reads it: a cell counts as a
    signal only if it is 'long' or 'short', so a numeric column of that
    name carries no signal at all. *)
Definition raw_column (data : DataFrame) (name : string)
    : option (list (option Side)) :=
  match labels data !! name with
  | Some col => Some col
  | None =>
      match floats data !! name with
      | Some col => Some (replicate (length col) None)
      | None => None
      end
  end.

Definition fresh_row (close : Qc) (raw : option Side) : Row :=
  {| Close := close; raw_sig := raw;
     entry_signal := None; exit_signal := None; in_position := false;
     profit := None; exit_type := None; trade_id := None;
     MACD := None; MACD_signal := None; MACD_hist := None |}.

(** [__init__]: the ValueError of the column check, then the copy with a
    fresh 0..n-1 index and the output columns initialised to NA / False.
    A 'Close' column that holds labels instead of numbers would make the
    first arithmetic on it fail; the rows here have numeric Close cells, so
    that TypeError is reported when the rows are built. *)
Definition init (data : DataFrame) (fast_period slow_period signal_period : Z)
    (pip_size : Qc) : result t :=
  if bool_decide ("Close" ∈ columns data ∧
                  raw_sig_name slow_period ∈ columns data) then
    close ← get_float data "Close";
    raw ← from_option Ok (Raise KeyError)
            (raw_column data (raw_sig_name slow_period));
    Ok {| df := zip_with fresh_row close raw;
          fast := fast_period; slow := slow_period;
          signal := signal_period; pip_size := pip_size |}
  else Raise ValueError.

Definition with_df (self : t) (df' : list Row) : t :=
  {| df := df'; fast := fast self; slow := slow self;
     signal := signal self; pip_size := pip_size self |}.

Definition calculate_macd (self : t) : result t :=
  let close := Close <$> df self in
  fast_ema ← pd.ewm_mean (fast self) close;
  slow_ema ← pd.ewm_mean (slow self) close;
  let macd := zip_with Qcminus fast_ema slow_ema in
  signal ← pd.ewm_mean (signal self) macd;
  let hist := zip_with Qcminus macd signal in
  let df := assign set_MACD (Some <$> macd) (df self) in
  let df := assign set_MACD_signal (Some <$> signal) df in
  let df := assign set_MACD_hist (Some <$> hist) df in
  Ok (with_df self df).

Definition scan0 : Scan :=
  {| trade_counter := 0; in_trade := false;
     entry_price := None; position := None |}.

Definition is_signal (raw : option Side) : bool :=
  match raw with
  | Some long | Some short => true
  | None => false
  end.

(** [((close - entry_price) if position == 'long'
      else (entry_price - close)) / pip_size] *)
Definition raw_profit (position : option Side) (entry_price : option Qc)
    (close pip_size : Qc) : result Qc :=
  match entry_price with
  | Some entry =>
      Ok ((if bool_decide (position = Some long) then close - entry
           else entry - close) / pip_size)
  | None => Raise TypeError
  end.

(** [(position == 'long' and hist < 0) or (position == 'short' and hist > 0)];
    comparing a missing histogram value has no truth value. *)
Definition macd_exit (position : option Side) (hist : option Qc)
    : result bool :=
  match position, hist with
  | Some long, Some h => Ok (bool_decide (h < 0))
  | Some short, Some h => Ok (bool_decide (0 < h))
  | Some _, None => Raise TypeError
  | None, _ => Ok false
  end.

Definition close_trade (pip_size : Qc) (sc : Scan) (idx : nat) (close : Qc)
    (how : ExitType) (df : list Row) : result (Scan * list Row) :=
  profit ← raw_profit (position sc) (entry_price sc) close pip_size;
  let df := at_set set_exit_signal idx
              (Some ("exit_" +:+ fmt_position (position sc))) df in
  let df := at_set set_exit_type idx (Some how) df in
  let df := at_set set_profit idx (Some (round profit 5)) df in
  Ok ({| trade_counter := trade_counter sc; in_trade := false;
         entry_price := entry_price sc; position := position sc |}, df).

(** One iteration of [for idx in df.index]. *)
Definition body (pip_size : Qc) (st : Scan * list Row) (idx : nat)
    : result (Scan * list Row) :=
  let '(sc, df) := st in
  raw ← at_get raw_sig df idx;
  close ← at_get Close df idx;
  if negb (in_trade sc) && is_signal raw then
    let sc := {| trade_counter := trade_counter sc + 1; in_trade := true;
                 entry_price := Some close; position := raw |} in
    let df := at_set set_entry_signal idx (position sc) df in
    let df := at_set set_in_position idx true df in
    let df := at_set set_trade_id idx (Some (trade_counter sc)) df in
    Ok (sc, df)
  else if in_trade sc then
    let df := at_set set_in_position idx true df in
    let df := at_set set_trade_id idx (Some (trade_counter sc)) df in
    if is_signal raw && bool_decide (raw ≠ position sc) then
      close_trade pip_size sc idx close ema_cross df
    else
      hist ← at_get MACD_hist df idx;
      fires ← macd_exit (position sc) hist;
      if fires : bool then close_trade pip_size sc idx close macd df
      else Ok (sc, df)
  else Ok (sc, df).

Definition notna {A : Type} (x : option A) : bool := bool_decide (is_Some x).
Definition isna {A : Type} (x : option A) : bool := negb (notna x).

Definition simulate_trades (self : t) : result t :=
  '(_, df) ← for_each (body (pip_size self)) (scan0, df self)
                (seq 0 (length (df self)));
  let df := assign set_in_position
              ((λ r, notna (trade_id r) && isna (exit_signal r)) <$> df) df in
  let df := assign set_in_position
              ((λ r, notna (trade_id r) && isna (exit_signal r)
                     || notna (exit_signal r)) <$> df) df in
  Ok (with_df self df).

Definition get_dataframe (self : t) : list Row := df self.

End MACDStrategy.

(** The script of [macd_strategy.py]: the strategy on a frame that already
    carries the raw signals, and the whole chain from raw bars. *)
Definition run_strategy (df_ema : DataFrame) (fast slow signal : Z)
    (pip_size : Qc) : result (list Row) :=
  strat ← MACDStrategy.init df_ema fast slow signal pip_size;
  strat ← MACDStrategy.calculate_macd strat;
  strat ← MACDStrategy.simulate_trades strat;
  Ok (MACDStrategy.get_dataframe strat).

Definition pipeline (df_raw : DataFrame) (ema_period fast slow signal : Z)
    (pip_size : Qc) : result (list Row) :=
  df_ema ← process_ema_signals df_raw ema_period;
  run_strategy df_ema fast slow signal pip_size.

(** Raw bars whose four price columns all equal [close]. *)
Definition bars (close : list Qc) : DataFrame :=
  {| floats := {[ "Open" := close; "High" := close;
                  "Low" := close; "Close" := close ]};
     labels := ∅ |}.


(** ** Trades, read off the annotated frame

    The source keeps no trade objects: a trade is the set of rows that carry
    its [trade_id].  Its entry bar is the row of that id with an
    [entry_signal], its exit bar the row of that id with an [exit_signal]. *)

Definition entry_row (k : nat) (r : Row) : Prop :=
  trade_id r = Some k ∧ is_Some (entry_signal r).
Definition exit_row (k : nat) (r : Row) : Prop :=
  trade_id r = Some k ∧ is_Some (exit_signal r).

Global Instance entry_row_dec k r : Decision (entry_row k r).
Proof. unfold entry_row. apply _. Defined.
Global Instance exit_row_dec k r : Decision (exit_row k r).
Proof. unfold exit_row. apply _. Defined.

Record Trade : Type := mkTrade {
  id : nat;
  direction : Side;
  entryIndex : nat;
  entryPrice : Qc;
  exitIndex : option nat;
  exitPrice : option Qc;
  exitReason : option ExitType;
  profitPips : option Qc
}.

Definition trade_of (df : list Row) (k : nat) : option Trade :=
  '(e, re) ← list_find (entry_row k) df;
  d ← entry_signal re;
  let ex := list_find (exit_row k) df in
  Some {| id := k; direction := d;
          entryIndex := e; entryPrice := Close re;
          exitIndex := fst <$> ex;
          exitPrice := (λ x, Close (snd x)) <$> ex;
          exitReason := ex ≫= (λ x, exit_type (snd x));
          profitPips := ex ≫= (λ x, profit (snd x)) |}.

(** Bar [i] of a frame of [n] rows lies in the interval of trade [t]:
    from the entry bar to the exit bar, or to the last bar if the trade
    never closed. *)
Definition spans (n : nat) (t : Trade) (i : nat) : Prop :=
  (entryIndex t ≤ i < n)%nat ∧
  match exitIndex t with
  | Some x => (i ≤ x)%nat
  | None => True
  end.

Global Instance spans_dec n t i : Decision (spans n t i).
Proof. unfold spans. destruct (exitIndex t); apply _. Defined.

Definition opposite (d : Side) : Side :=
  match d with
  | long => short
  | short => long
  end.

(** The histogram is against a position of direction [d]. *)
Definition adverse (d : Side) (hist : Qc) : Prop :=
  match d with
  | long => hist < 0
  | short => 0 < hist
  end.

(** The price move in the direction of trade [t] up to the price [exit],
    and what it means for the exit to be favorable. *)
Definition move (t : Trade) (exit : Qc) : Qc :=
  match direction t with
  | long => exit - entryPrice t
  | short => entryPrice t - exit
  end.

Definition favorable (t : Trade) (exit : Qc) : Prop :=
  match direction t with
  | long => entryPrice t < exit
  | short => exit < entryPrice t
  end.

(** ** One bar at a time

    An iteration of the loop reads and writes row [idx] only.  [bar] is that
    iteration on the row alone, and [Step] lists the five ways it can
    complete. *)

Definition bar (pip_size : Qc) (sc : Scan) (r : Row) : result (Scan * Row) :=
  '(sc', df') ← MACDStrategy.body pip_size (sc, [r]) 0;
  from_option (λ r', Ok (sc', r')) (Raise KeyError) (df' !! 0%nat).

Fixpoint scan_rows (pip_size : Qc) (sc : Scan) (rows : list Row)
    : result (Scan * list Row) :=
  match rows with
  | [] => Ok (sc, [])
  | r :: rest =>
      '(sc', r') ← bar pip_size sc r;
      '(sc'', rest') ← scan_rows pip_size sc' rest;
      Ok (sc'', r' :: rest')
  end.

Definition untouched (r : Row) : Prop :=
  entry_signal r = None ∧ exit_signal r = None ∧ profit r = None ∧
  exit_type r = None ∧ trade_id r = None.

Definition flat_scan (sc : Scan) : Scan :=
  {| trade_counter := trade_counter sc; in_trade := false;
     entry_price := entry_price sc; position := position sc |}.

Definition in_trade_row (sc : Scan) (r : Row) : Row :=
  set_trade_id (Some (trade_counter sc)) (set_in_position true r).

Definition exit_row_of (pip_size : Qc) (sc : Scan) (how : ExitType)
    (entry : Qc) (r : Row) : Row :=
  set_profit
    (Some (round ((if bool_decide (position sc = Some long)
                   then Close r - entry else entry - Close r) / pip_size) 5))
    (set_exit_type (Some how)
       (set_exit_signal (Some ("exit_" +:+ fmt_position (position sc)))
          (in_trade_row sc r))).

Inductive Step (pip_size : Qc) : Scan → Row → Scan → Row → Prop :=
  | step_flat sc r :
      in_trade sc = false →
      raw_sig r = None →
      Step pip_size sc r sc r
  | step_enter sc r d :
      in_trade sc = false →
      raw_sig r = Some d →
      Step pip_size sc r
        {| trade_counter := trade_counter sc + 1; in_trade := true;
           entry_price := Some (Close r); position := Some d |}
        (set_trade_id (Some (trade_counter sc + 1)%nat)
           (set_in_position true (set_entry_signal (Some d) r)))
  | step_cross sc r d entry :
      in_trade sc = true →
      raw_sig r = Some d →
      Some d ≠ position sc →
      entry_price sc = Some entry →
      Step pip_size sc r (flat_scan sc) (exit_row_of pip_size sc ema_cross entry r)
  | step_macd sc r entry :
      in_trade sc = true →
      (raw_sig r = None ∨ raw_sig r = position sc) →
      MACDStrategy.macd_exit (position sc) (MACD_hist r) = Ok true →
      entry_price sc = Some entry →
      Step pip_size sc r (flat_scan sc) (exit_row_of pip_size sc macd entry r)
  | step_hold sc r :
      in_trade sc = true →
      (raw_sig r = None ∨ raw_sig r = position sc) →
      MACDStrategy.macd_exit (position sc) (MACD_hist r) = Ok false →
      Step pip_size sc r sc (in_trade_row sc r).

(** The last two statements of [simulate_trades]: [in_position] is assigned
    twice from [trade_id] and [exit_signal]; the second assignment wins. *)
Definition finish (r : Row) : Row :=
  set_in_position
    (MACDStrategy.notna (trade_id r) && MACDStrategy.isna (exit_signal r)
     || MACDStrategy.notna (exit_signal r)) r.

(** The local variables on arrival at bar [i]. *)
Definition state_at (pip_size : Qc) (rows : list Row) (i : nat) : Scan :=
  match scan_rows pip_size MACDStrategy.scan0 (take i rows) with
  | Ok (sc, _) => sc
  | Raise _ => MACDStrategy.scan0
  end.

(** A completed run of the loop over [rows], leaving the frame [df], seen
    as the sequence [st] of the local variables. *)
Record Trace (pip_size : Qc) (rows df : list Row) (st : nat → Scan) : Prop := {
  trace_start : st 0%nat = MACDStrategy.scan0;
  trace_length : length df = length rows;
  trace_untouched : ∀ i r, rows !! i = Some r → untouched r;
  trace_step : ∀ i r, rows !! i = Some r →
    ∃ r', Step pip_size (st i) r (st (S i)) r' ∧ df !! i = Some (finish r')
}.

(** ** The signal stage, column by column *)

(** The label column [generate_signals] builds from the two columns it
    reads. *)
Definition crossings (close ema : list Qc) : list (option Side) :=
  pd.loc_set
    (pd.and (pd.lt close ema) (pd.ge_na (pd.shift close) (pd.shift ema)))
    (Some short)
    (pd.loc_set
       (pd.and (pd.gt close ema) (pd.le_na (pd.shift close) (pd.shift ema)))
       (Some long)
       (replicate (length close) None)).

(** The price [c] is on side [d] of the trend value [t]: above it for
    long, below it for short. *)
Definition on_side (d : Side) (c t : Qc) : Prop :=
  match d with
  | long => (t < c)%Qc
  | short => (c < t)%Qc
  end.

(** The recurrence of the specification: [ys] is [xs] smoothed with period
    [P], seeded with the first value. *)
Definition smoothed (P : Z) (xs ys : list Qc) : Prop :=
  length ys = length xs ∧
  ys !! 0%nat = xs !! 0%nat ∧
  ∀ i x y, xs !! S i = Some x → ys !! i = Some y →
    ys !! S i = Some (x * (num 2 / num (P + 1))
                      + y * (1 - num 2 / num (P + 1))).

(** ** Sample runs *)

(** The scenario of the specification, and a longer series with four
    trades closed by both kinds of exit. *)
Definition scenario_close : list Qc := num <$> [10; 12; 11; 9]%Z.
Definition demo_close : list Qc :=
  num <$> [10; 12; 11; 9; 8; 9; 12; 13; 12; 10; 14; 15]%Z.

Definition signals_of (close : list Qc) (period : Z) : DataFrame :=
  match process_ema_signals (bars close) period with
  | Ok df => df
  | Raise _ => bars []
  end.

Definition rows_of (data : DataFrame) (fast slow signal : Z) (pip_size : Qc)
    : list Row :=
  match run_strategy data fast slow signal pip_size with
  | Ok df => df
  | Raise _ => []
  end.

Definition demo_signals : DataFrame := signals_of demo_close 2.
Definition demo_df : list Row := rows_of demo_signals 55 2 8 (num 1).

(** What the specification expects of the scenario: one long trade,
    entered on bar 1 at 12 and closed on bar 2 at 11 by the cross reversal
    with a profit of -1 pip. *)
Definition scenario_outcome (df : list Row) : Prop :=
  trade_id <$> df = [None; Some 1%nat; Some 1%nat; None] ∧
  exit_type <$> df = [None; None; Some ema_cross; None] ∧
  profit <$> df = [None; None; Some (num (-1)); None] ∧
  in_position <$> df = [false; true; true; false] ∧
  trade_of df 1 =
    Some {| id := 1; direction := long;
            entryIndex := 1; entryPrice := num 12;
            exitIndex := Some 2%nat; exitPrice := Some (num 11);
            exitReason := Some ema_cross;
            profitPips := Some (num (-1)) |} ∧
  trade_of df 2 = None.

(** A long trade that gains one millionth of a pip. *)
Definition tiny_close : list Qc :=
  [num 10; num 12; Q2Qc (12000001 # 1000000)].

(** ** Basic facts *)

Lemma bind_Ok {A B : Type} (m : result A) (f : A → result B) (b : B) :
  m ≫= f = Ok b ↔ ∃ a, m = Ok a ∧ f a = Ok b.
Proof.
  destruct m as [a|e]; simpl.
  - split; [eauto | by intros (? & [= ->] & ?)].
  - split; [done | by intros (? & ? & ?)].
Qed.

Local Arguments MACDStrategy.macd_exit : simpl never.

Lemma bar_Step pip_size sc r sc' r' :
  bar pip_size sc r = Ok (sc', r') ↔ Step pip_size sc r sc' r'.
Proof.
  unfold bar, MACDStrategy.body, MACDStrategy.close_trade,
    MACDStrategy.raw_profit, at_get, at_set.
  split.
  - destruct sc as [tc it ep pos], r as [c raw es xs ip pr xt ti m ms mh].
    destruct it, raw as [d|]; simpl.
    + destruct d; simpl.
      all: case_bool_decide as Hd; simpl.
      all: try (destruct ep as [e|]; simpl; [|done]; intros [= <- <-];
                by eapply (step_cross _ (mkScan _ _ _ _) (mkRow _ _ _ _ _ _ _ _ _ _ _))).
      all: destruct (MACDStrategy.macd_exit pos mh) as [[|]|] eqn:Hm; simpl; [| |done].
      all: try (destruct ep as [e|]; simpl; [|done]; intros [= <- <-];
           eapply (step_macd _ (mkScan _ _ _ _) (mkRow _ _ _ _ _ _ _ _ _ _ _)); naive_solver).
      all: intros [= <- <-]; eapply (step_hold _ (mkScan _ _ _ _) (mkRow _ _ _ _ _ _ _ _ _ _ _)); naive_solver.
    + destruct (MACDStrategy.macd_exit pos mh) as [[|]|] eqn:Hm; simpl; [| |done].
      * destruct ep as [e|]; simpl; [|done]; intros [= <- <-];
           eapply (step_macd _ (mkScan _ _ _ _) (mkRow _ _ _ _ _ _ _ _ _ _ _)); naive_solver.
      * intros [= <- <-]; eapply (step_hold _ (mkScan _ _ _ _) (mkRow _ _ _ _ _ _ _ _ _ _ _)); naive_solver.
    + destruct d; simpl; intros [= <- <-];
        by eapply (step_enter _ (mkScan _ _ _ _) (mkRow _ _ _ _ _ _ _ _ _ _ _)).
    + intros [= <- <-]. by apply step_flat.
  - intros H. destruct H as [sc r Hi Hr|sc r d Hi Hr|sc r d e Hi Hr Hd He
                            |sc r e Hi Hr Hm He|sc r Hi Hr Hm].
    all: destruct sc as [tc it ep pos], r as [c raw es xs ip pr xt ti m ms mh].
    all: simpl in *; subst.
    + done.
    + by destruct d.
    + destruct d; simpl; by rewrite bool_decide_true.
    + destruct Hr as [->| ->]; simpl.
      * by rewrite Hm.
      * destruct pos as [[|]|]; simpl; rewrite ?bool_decide_false by naive_solver;
          simpl; by rewrite ?Hm.
    + destruct Hr as [->| ->]; simpl.
      * by rewrite Hm.
      * destruct pos as [[|]|]; simpl; rewrite ?bool_decide_false by naive_solver;
          simpl; by rewrite ?Hm.
Qed.

Lemma at_get_middle {V} (col : Row → V) pre r post :
  at_get col (pre ++ r :: post) (length pre) = Ok (col r).
Proof. unfold at_get. by rewrite list_lookup_middle. Qed.

Lemma at_set_middle {V} (col : V → Row → Row) v pre r post :
  at_set col (length pre) v (pre ++ r :: post) = pre ++ col v r :: post.
Proof.
  unfold at_set. by rewrite <-(Nat.add_0_r (length pre)), alter_app_r.
Qed.

Lemma body_local pip_size sc pre r post :
  MACDStrategy.body pip_size (sc, pre ++ r :: post) (length pre) =
  '(sc', r') ← bar pip_size sc r; Ok (sc', pre ++ r' :: post).
Proof.
  unfold bar, MACDStrategy.body, MACDStrategy.close_trade.
  rewrite !at_get_middle. simpl.
  destruct (in_trade sc), (MACDStrategy.is_signal (raw_sig r)); simpl.
  all: rewrite ?at_set_middle, ?at_get_middle; simpl; try done.
  all: try case_bool_decide; simpl.
  all: repeat
    match goal with
    | |- context [MACDStrategy.raw_profit ?a ?b ?c ?d] =>
        destruct (MACDStrategy.raw_profit a b c d); simpl
    | |- context [MACDStrategy.macd_exit ?a ?b] =>
        destruct (MACDStrategy.macd_exit a b) as [[|]|]; simpl
    end.
  all: rewrite ?at_set_middle; try done.
Qed.

Lemma for_each_scan pip_size rows : ∀ sc pre,
  for_each (MACDStrategy.body pip_size) (sc, pre ++ rows)
    (seq (length pre) (length rows)) =
  '(sc', rows') ← scan_rows pip_size sc rows; Ok (sc', pre ++ rows').
Proof.
  induction rows as [|r rest IH]; intros sc pre; cbn [length seq for_each].
  - done.
  - rewrite body_local. cbn [scan_rows].
    destruct (bar pip_size sc r) as [[sc1 r1]|e]; simpl; [|done].
    replace (pre ++ r1 :: rest) with ((pre ++ [r1]) ++ rest)
      by by rewrite <-app_assoc.
    replace (S (length pre)) with (length (pre ++ [r1]))
      by (rewrite length_app; simpl; lia).
    rewrite IH.
    destruct (scan_rows pip_size sc1 rest) as [[sc2 rest']|e]; simpl; [|done].
    by rewrite <-app_assoc.
Qed.

Lemma scan_rows_app pip_size l1 : ∀ sc l2,
  scan_rows pip_size sc (l1 ++ l2) =
  '(sc1, o1) ← scan_rows pip_size sc l1;
  '(sc2, o2) ← scan_rows pip_size sc1 l2;
  Ok (sc2, o1 ++ o2).
Proof.
  induction l1 as [|r l1 IH]; intros sc l2; simpl.
  - by destruct (scan_rows pip_size sc l2) as [[? ?]|].
  - destruct (bar pip_size sc r) as [[sc1 r1]|e]; simpl; [|done].
    rewrite IH.
    destruct (scan_rows pip_size sc1 l1) as [[sc2 o1]|e]; simpl; [|done].
    by destruct (scan_rows pip_size sc2 l2) as [[? ?]|].
Qed.

Lemma scan_rows_length pip_size rows : ∀ sc sc' out,
  scan_rows pip_size sc rows = Ok (sc', out) → length out = length rows.
Proof.
  induction rows as [|r rest IH]; intros sc sc' out; simpl.
  - by intros [= <- <-].
  - destruct (bar pip_size sc r) as [[sc1 r1]|e]; simpl; [|done].
    destruct (scan_rows pip_size sc1 rest) as [[sc2 rest']|e] eqn:Hrest;
      simpl; [|done].
    intros [= <- <-]. simpl. f_equal. eauto.
Qed.

Lemma assign_fmap {V : Type} (col : V → Row → Row) (f : Row → V) df :
  assign col (f <$> df) df = (λ r, col (f r) r) <$> df.
Proof.
  unfold assign. induction df as [|r df IH]; simpl; [done|]. f_equal. apply IH.
Qed.

Lemma simulate_trades_scan self :
  MACDStrategy.simulate_trades self =
  '(_, out) ← scan_rows (MACDStrategy.pip_size self) MACDStrategy.scan0
                (MACDStrategy.df self);
  Ok (MACDStrategy.with_df self (finish <$> out)).
Proof.
  unfold MACDStrategy.simulate_trades.
  pose proof (for_each_scan (MACDStrategy.pip_size self)
                (MACDStrategy.df self) MACDStrategy.scan0 []) as H.
  cbn [app length] in H. rewrite H. clear H. simpl.
  destruct (scan_rows _ _ _) as [[sc out]|e]; simpl; [|done].
  do 2 f_equal. rewrite !assign_fmap, <-list_fmap_compose.
  apply list_fmap_ext. by intros i [].
Qed.

Lemma state_at_S pip_size rows i r sc' r' :
  rows !! i = Some r →
  (∃ o, scan_rows pip_size MACDStrategy.scan0 (take i rows)
        = Ok (state_at pip_size rows i, o)) →
  bar pip_size (state_at pip_size rows i) r = Ok (sc', r') →
  state_at pip_size rows (S i) = sc'.
Proof.
  intros Hr [o Ho] Hbar. unfold state_at at 1.
  rewrite (take_S_r _ _ _ Hr), scan_rows_app, Ho. simpl. by rewrite Hbar.
Qed.

Lemma scan_trace pip_size rows sc out :
  scan_rows pip_size MACDStrategy.scan0 rows = Ok (sc, out) →
  (∀ i r, rows !! i = Some r → untouched r) →
  Trace pip_size rows (finish <$> out) (state_at pip_size rows).
Proof.
  intros Hrun Hun. split.
  - done.
  - rewrite length_fmap. eauto using scan_rows_length.
  - done.
  - intros i r Hr.
    pose proof (take_drop_middle _ _ _ Hr) as Hsplit.
    rewrite <-Hsplit, scan_rows_app in Hrun.
    destruct (scan_rows pip_size MACDStrategy.scan0 (take i rows))
      as [[sc1 o1]|e] eqn:H1; simpl in Hrun; [|done].
    destruct (bar pip_size sc1 r) as [[sc2 r']|e] eqn:H2; simpl in Hrun; [|done].
    destruct (scan_rows pip_size sc2 (drop (S i) rows))
      as [[sc3 o3]|e] eqn:H3; simpl in Hrun; [|done].
    injection Hrun as <- <-.
    assert (state_at pip_size rows i = sc1) as Hi
      by (unfold state_at; by rewrite H1).
    exists r'. split.
    + rewrite Hi. apply bar_Step.
      erewrite state_at_S; [done|done| |]; rewrite Hi; eauto.
    + rewrite list_lookup_fmap.
      apply scan_rows_length in H1. rewrite length_take in H1.
      apply lookup_lt_Some in Hr.
      replace i with (length o1 + 0)%nat at 1 by lia.
      by rewrite lookup_app_r, Nat.add_comm, Nat.add_sub by lia.
Qed.

Local Close Scope Qc_scope.
Local Close Scope Q_scope.
Local Open Scope nat_scope.

(** ** The loop as a sequence of states *)

Section trace_facts.
Context {pip_size : Qc} {rows df : list Row} {st : nat → Scan}.
Context (T : Trace pip_size rows df st).

Local Abbreviation tc i := (trade_counter (st i)).

Lemma df_step i r' :
  df !! i = Some r' →
  ∃ r r0, rows !! i = Some r ∧ untouched r ∧
          Step pip_size (st i) r (st (S i)) r0 ∧ r' = finish r0.
Proof.
  intros Hi.
  assert (is_Some (rows !! i)) as [r Hr].
  { apply lookup_lt_is_Some. rewrite <-(trace_length _ _ _ _ T).
    by eapply lookup_lt_Some. }
  destruct (trace_step _ _ _ _ T i r Hr) as (r0 & Hs & Hd).
  exists r, r0. split; [done|]. split; [by eapply trace_untouched|].
  split; [done|]. rewrite Hi in Hd. by injection Hd.
Qed.

Lemma df_lookup i : i < length rows → is_Some (df !! i).
Proof.
  intros Hi. apply lookup_lt_is_Some. by rewrite (trace_length _ _ _ _ T).
Qed.

Ltac step_at H :=
  let r := fresh "r" in
  let r0 := fresh "r0" in
  let Hs := fresh "Hs" in
  let U1 := fresh "U" in
  let U2 := fresh "U" in
  let U3 := fresh "U" in
  let U4 := fresh "U" in
  let U5 := fresh "U" in
  destruct (df_step _ _ H) as (r & r0 & ? & (U1 & U2 & U3 & U4 & U5) & Hs & ->);
  inversion Hs; subst;
  repeat match goal with
         | E : _ = st (S _) |- _ => rewrite <-E in *; clear E
         end;
  simpl in *; rewrite ?U1, ?U2, ?U3, ?U4, ?U5; simpl.

Lemma tc_step i : i < length rows → tc i ≤ tc (S i).
Proof. intros [r' Hr']%df_lookup. step_at Hr'; lia. Qed.

Lemma tc_mono i j : i ≤ j → j ≤ length rows → tc i ≤ tc j.
Proof.
  induction 1 as [|j Hij IH]; intros Hj; [done|].
  etrans; [apply IH; lia|]. apply tc_step. lia.
Qed.

Lemma in_trade_counter i :
  i ≤ length rows → in_trade (st i) = true → 1 ≤ tc i.
Proof.
  induction i as [|i IH]; intros Hi.
  - by rewrite (trace_start _ _ _ _ T).
  - destruct (df_lookup i) as [r' Hr']; [lia|].
    step_at Hr'; try done; try lia.
    all: intros; apply IH; [lia|done].
Qed.

(** What the row of an entry bar says about the states around it. *)
Lemma entry_at i r' k :
  df !! i = Some r' → entry_row k r' →
  in_trade (st i) = false ∧ tc i + 1 = k ∧ tc (S i) = k ∧
  in_trade (st (S i)) = true ∧
  position (st (S i)) = entry_signal r' ∧
  entry_price (st (S i)) = Some (Close r') ∧
  exit_signal r' = None ∧ exit_type r' = None ∧ profit r' = None.
Proof.
  intros Hr' [Hk [d Hd]]. step_at Hr'; try congruence.
  repeat split; congruence.
Qed.

(** What the row of an exit bar says. *)
Lemma exit_at x r' k :
  df !! x = Some r' → exit_row k r' →
  in_trade (st x) = true ∧ tc x = k ∧ st (S x) = flat_scan (st x) ∧
  entry_signal r' = None ∧
  ∃ how entry,
    exit_type r' = Some how ∧ entry_price (st x) = Some entry ∧
    profit r' =
      Some (round ((if bool_decide (position (st x) = Some long)
                    then Close r' - entry else entry - Close r')
                   / pip_size)%Qc 5) ∧
    match how with
    | ema_cross => ∃ d, raw_sig r' = Some d ∧ Some d ≠ position (st x)
    | macd => (raw_sig r' = None ∨ raw_sig r' = position (st x)) ∧
              MACDStrategy.macd_exit (position (st x)) (MACD_hist r') = Ok true
    end.
Proof.
  intros Hr' [Hk [d Hd]]. step_at Hr'; try congruence.
  - repeat split; try congruence. exists ema_cross, entry. split_and!; eauto.
  - repeat split; try congruence. exists macd, entry. split_and!; eauto.
Qed.

(** Rows that carry a trade id, and rows that do not. *)
Lemma id_at i r' k :
  df !! i = Some r' → trade_id r' = Some k →
  tc (S i) = k ∧
  ((in_trade (st i) = false ∧ is_Some (entry_signal r')) ∨
   (in_trade (st i) = true ∧ tc i = k ∧ entry_signal r' = None)).
Proof.
  intros Hr' Hk. step_at Hr'; try congruence.
  - split; [congruence|]. left. eauto.
  - split; [congruence|]. right. split; [done|]. split; congruence.
  - split; [congruence|]. right. split; [done|]. split; congruence.
  - split; [congruence|]. right. split; [done|]. split; congruence.
Qed.

Lemma no_id_at i r' :
  df !! i = Some r' → trade_id r' = None →
  in_trade (st i) = false ∧ st (S i) = st i ∧
  entry_signal r' = None ∧ exit_signal r' = None.
Proof. intros Hr' Hk. step_at Hr'; try congruence. done. Qed.

Lemma in_trade_at i r' :
  df !! i = Some r' → in_trade (st i) = true →
  trade_id r' = Some (tc i) ∧ entry_signal r' = None ∧
  (in_trade (st (S i)) = true → st (S i) = st i ∧ exit_signal r' = None).
Proof. intros Hr' Hk. step_at Hr'; try congruence; done. Qed.

Lemma in_position_at i r' :
  df !! i = Some r' →
  in_position r' = bool_decide (is_Some (trade_id r')) ∧
  (is_Some (exit_signal r') → is_Some (trade_id r')).
Proof.
  intros Hr'. step_at Hr'; split; try done; by intros [? [=]].
Qed.

(** While flat, the loop can only re-enter by counting a new trade. *)
Lemma stay_flat a b :
  a ≤ b → b ≤ length rows →
  in_trade (st a) = false → tc b = tc a → in_trade (st b) = false.
Proof.
  induction 1 as [|b Hab IH]; intros Hb Ha Htc; [done|].
  pose proof (tc_mono a b Hab ltac:(lia)).
  pose proof (tc_step b ltac:(lia)).
  assert (in_trade (st b) = false) as Hflat by (apply IH; [lia|done|lia]).
  destruct (df_lookup b) as [r' Hr']; [lia|].
  step_at Hr'; try congruence. lia.
Qed.

(** Once flat again, the last trade counted has an exit bar behind it. *)
Lemma exit_exists i :
  i ≤ length rows → in_trade (st i) = false → 1 ≤ tc i →
  ∃ x rx, x < i ∧ df !! x = Some rx ∧ exit_row (tc i) rx.
Proof.
  induction i as [|i IH]; intros Hi Hflat Hpos.
  - rewrite (trace_start _ _ _ _ T) in Hpos. simpl in Hpos. lia.
  - destruct (df_lookup i) as [r' Hr']; [lia|].
    pose proof Hr' as Hrow. step_at Hr'; try congruence.
    + destruct IH as (x & rx & ? & ? & ?); [lia|done|done|].
      exists x, rx. split; [lia|done].
    + eexists i, _. split; [lia|]. split; [done|]. split; simpl; eauto.
    + eexists i, _. split; [lia|]. split; [done|]. split; simpl; eauto.
Qed.

(** Every trade counted before the current one has been closed. *)
Lemma closed_before i k :
  i ≤ length rows → 1 ≤ k → k < tc i →
  ∃ x rx, x < i ∧ df !! x = Some rx ∧ exit_row k rx.
Proof.
  induction i as [|i IH]; intros Hi Hk Hlt.
  - rewrite (trace_start _ _ _ _ T) in Hlt. simpl in Hlt. lia.
  - destruct (df_lookup i) as [r' Hr']; [lia|].
    assert (k < tc i → ∃ x rx, x < S i ∧ df !! x = Some rx ∧ exit_row k rx)
      as Hold.
    { intros Hlt'. destruct IH as (x & rx & ? & ? & ?); [lia|done|done|].
      exists x, rx. split; [lia|done]. }
    pose proof Hr' as Hrow. step_at Hr'; try by apply Hold.
    destruct (decide (k = tc i)) as [->|Hne]; [|apply Hold; lia].
    destruct (exit_exists i) as (x & rx & ? & ? & ?); [lia|done|done|].
    exists x, rx. split; [lia|done].
Qed.

(** The trade counted last has its entry bar behind it, and the local
    variables still hold what that bar wrote. *)
Lemma entry_exists i :
  i ≤ length rows → 1 ≤ tc i →
  ∃ e re, e < i ∧ df !! e = Some re ∧ entry_row (tc i) re ∧
          position (st i) = entry_signal re ∧
          entry_price (st i) = Some (Close re).
Proof.
  induction i as [|i IH]; intros Hi Hpos.
  - rewrite (trace_start _ _ _ _ T) in Hpos. simpl in Hpos. lia.
  - destruct (df_lookup i) as [r' Hr']; [lia|].
    assert (1 ≤ tc i →
            ∃ e re, e < S i ∧ df !! e = Some re ∧ entry_row (tc i) re ∧
              position (st i) = entry_signal re ∧
              entry_price (st i) = Some (Close re)) as Hold.
    { intros Hpos'. destruct IH as (e & re & ? & ?); [lia|done|].
      exists e, re. split; [lia|done]. }
    pose proof Hr' as Hrow. step_at Hr'; try by apply Hold.
    eexists i, _. split; [lia|]. split; [done|]. simpl.
    split; [|done]. split; simpl; eauto.
Qed.

(** From the entry bar on, the trade stays open until a row of that trade
    carries an exit signal. *)
Lemma held e re k i :
  df !! e = Some re → entry_row k re →
  e < i → i ≤ length rows →
  (∀ x rx, x < i → df !! x = Some rx → ¬ exit_row k rx) →
  in_trade (st i) = true ∧ tc i = k.
Proof.
  intros He Hek Hei. induction Hei as [|i Hei IH]; intros Hi Hno.
  - destruct (entry_at e re k He Hek) as (_ & _ & ? & ? & _). done.
  - destruct IH as [Hin Htc]; [lia|by eauto with lia|].
    destruct (df_lookup i) as [r' Hr']; [lia|].
    destruct (in_trade_at i r' Hr' Hin) as (Hid & _ & _).
    destruct (decide (is_Some (exit_signal r'))) as [Hx|Hx].
    { destruct (Hno i r'); [lia|done|]. split; [congruence|done]. }
    pose proof Hr' as Hrow. step_at Hr'; try congruence.
    all: try (exfalso; apply Hx; by eauto).
    done.
Qed.

Lemma row_index i r : df !! i = Some r → i < length rows.
Proof.
  intros H%lookup_lt_Some. by rewrite (trace_length _ _ _ _ T) in H.
Qed.

Lemma entry_unique i j r1 r2 k :
  df !! i = Some r1 → entry_row k r1 →
  df !! j = Some r2 → entry_row k r2 → i = j.
Proof.
  intros Hi Hk1 Hj Hk2.
  destruct (entry_at i r1 k Hi Hk1) as (_ & ? & ? & _).
  destruct (entry_at j r2 k Hj Hk2) as (_ & ? & ? & _).
  pose proof (row_index i r1 Hi). pose proof (row_index j r2 Hj).
  destruct (lt_eq_lt_dec i j) as [[Hlt| ->]|Hlt]; [|done|].
  - pose proof (tc_mono (S i) j). lia.
  - pose proof (tc_mono (S j) i). lia.
Qed.

Lemma exit_unique i j r1 r2 k :
  df !! i = Some r1 → exit_row k r1 →
  df !! j = Some r2 → exit_row k r2 → i = j.
Proof.
  intros Hi Hk1 Hj Hk2.
  destruct (exit_at i r1 k Hi Hk1) as (Hin1 & Ht1 & Hf1 & _).
  destruct (exit_at j r2 k Hj Hk2) as (Hin2 & Ht2 & Hf2 & _).
  pose proof (row_index i r1 Hi). pose proof (row_index j r2 Hj).
  destruct (lt_eq_lt_dec i j) as [[Hlt| ->]|Hlt]; [|done|].
  - pose proof (stay_flat (S i) j) as Hs. rewrite Hf1 in Hs. simpl in Hs.
    rewrite Hs in Hin2; [done|lia|lia|done|lia].
  - pose proof (stay_flat (S j) i) as Hs. rewrite Hf2 in Hs. simpl in Hs.
    rewrite Hs in Hin1; [done|lia|lia|done|lia].
Qed.

Lemma entry_before_exit e x re rx k :
  df !! e = Some re → entry_row k re →
  df !! x = Some rx → exit_row k rx → e < x.
Proof.
  intros He Hek Hx Hxk.
  destruct (entry_at e re k He Hek) as (Hin1 & ? & ? & _).
  destruct (exit_at x rx k Hx Hxk) as (Hin2 & ? & _).
  pose proof (row_index e re He).
  destruct (decide (e < x)) as [|Hge]; [done|].
  pose proof (tc_mono x e). lia.
Qed.

Lemma exit_before_later_entry x rx k e' re' k' :
  df !! x = Some rx → exit_row k rx →
  df !! e' = Some re' → entry_row k' re' → k < k' → x < e'.
Proof.
  intros Hx Hxk He Hek Hlt.
  destruct (exit_at x rx k Hx Hxk) as (Hin1 & ? & _).
  destruct (entry_at e' re' k' He Hek) as (Hin2 & ? & ? & _).
  pose proof (row_index x rx Hx).
  destruct (decide (x < e')) as [|Hge]; [done|].
  destruct (decide (x = e')) as [->|]; [congruence|].
  pose proof (tc_mono (S e') x). lia.
Qed.

Lemma entry_order e re k e' re' k' :
  df !! e = Some re → entry_row k re →
  df !! e' = Some re' → entry_row k' re' → (k < k' ↔ e < e').
Proof.
  intros He Hek He' Hek'.
  destruct (entry_at e re k He Hek) as (_ & ? & ? & _).
  destruct (entry_at e' re' k' He' Hek') as (_ & ? & ? & _).
  pose proof (row_index e re He). pose proof (row_index e' re' He').
  destruct (lt_eq_lt_dec e e') as [[Hlt| ->]|Hlt].
  - pose proof (tc_mono (S e) e'). lia.
  - lia.
  - pose proof (tc_mono (S e') e). lia.
Qed.

(** The counter on arrival at a bar is the number of entry bars so far. *)
Lemma counter_counts i :
  i ≤ length rows →
  tc i = length (filter (λ r, is_Some (entry_signal r)) (take i df)).
Proof.
  induction i as [|i IH]; intros Hi.
  - by rewrite (trace_start _ _ _ _ T).
  - destruct (df_lookup i) as [r' Hr']; [lia|].
    rewrite (take_S_r _ _ _ Hr'), filter_app, length_app, <-IH by lia.
    rewrite filter_cons, filter_nil.
    step_at Hr'; lia.
Qed.

(** A row carries trade id [k] exactly between the entry bar of [k] and
    its exit bar, if any. *)
Lemma id_iff_between i r k :
  df !! i = Some r →
  trade_id r = Some k ↔
  ∃ e re, df !! e = Some re ∧ entry_row k re ∧ e ≤ i ∧
          ∀ x rx, df !! x = Some rx → exit_row k rx → i ≤ x.
Proof.
  intros Hi. pose proof (row_index i r Hi) as Hn. split.
  - intros Hk. destruct (id_at i r k Hi Hk) as (Htc & [[Hin He]|(Hin & Hk' & He)]).
    + exists i, r. split; [done|]. split; [done|]. split; [done|].
      intros x rx Hx Hxk.
      pose proof (entry_before_exit i x r rx k Hi (conj Hk He) Hx Hxk). lia.
    + pose proof (in_trade_counter i ltac:(lia) Hin) as Hpos.
      destruct (entry_exists i) as (e & re & Hlt & Hre & Hek & _); [lia|done|].
      rewrite Hk' in Hek.
      exists e, re. split; [done|]. split; [done|]. split; [lia|].
      intros x rx Hx Hxk.
      destruct (decide (i ≤ x)) as [|Hgt]; [done|].
      destruct (exit_at x rx k Hx Hxk) as (_ & Htx & Hfx & _).
      pose proof (stay_flat (S x) i) as Hs. rewrite Hfx in Hs. simpl in Hs.
      rewrite Hs in Hin; [done|lia|lia|done|lia].
  - intros (e & re & He & Hek & Hle & Hno).
    destruct (decide (e = i)) as [->|Hne].
    + rewrite Hi in He. injection He as <-. by destruct Hek.
    + destruct (held e re k i He Hek) as [Hin Htc]; [lia|lia| |].
      * intros x rx Hlt Hx Hxk. specialize (Hno x rx Hx Hxk). lia.
      * destruct (in_trade_at i r Hi Hin) as (Hid & _). congruence.
Qed.

(** The three ways a bar can go while a position is open. *)
Lemma open_bar i r :
  df !! i = Some r → in_trade (st i) = true →
  (∃ d, raw_sig r = Some d ∧ Some d ≠ position (st i) ∧
        exit_type r = Some ema_cross) ∨
  ((raw_sig r = None ∨ raw_sig r = position (st i)) ∧
   MACDStrategy.macd_exit (position (st i)) (MACD_hist r) = Ok true ∧
   exit_type r = Some macd) ∨
  ((raw_sig r = None ∨ raw_sig r = position (st i)) ∧
   MACDStrategy.macd_exit (position (st i)) (MACD_hist r) = Ok false ∧
   exit_type r = None).
Proof.
  intros Hr Hin. step_at Hr; try congruence.
  - left. eauto.
  - right. left. eauto.
  - right. right. eauto.
Qed.

(** While trade [k] is the last one counted, the local variables hold the
    direction and the price of its entry bar. *)
Lemma open_state i k e re :
  i ≤ length rows → tc i = k →
  df !! e = Some re → entry_row k re →
  position (st i) = entry_signal re ∧
  entry_price (st i) = Some (Close re).
Proof.
  intros Hi Hk He Hek.
  destruct (entry_at e re k He Hek) as (_ & Hpos & _).
  destruct (entry_exists i) as (e' & re' & _ & He' & Hek' & Hp & Hq);
    [done|lia|].
  rewrite Hk in Hek'.
  pose proof (entry_unique e e' re re' k He Hek He' Hek') as <-.
  rewrite He in He'. by injection He' as <-.
Qed.

End trace_facts.

(** ** From a run of the strategy to its trace *)

Lemma untouched_assign {V : Type} (col : V → Row → Row) vs df :
  (∀ v r, untouched r → untouched (col v r)) →
  Forall untouched df → Forall untouched (assign col vs df).
Proof.
  intros Hcol Hdf. unfold assign. revert vs.
  induction Hdf as [|r df Hr Hdf IH]; intros [|v vs]; simpl; constructor; eauto.
Qed.

Lemma init_untouched data fast slow signal pip_size s :
  MACDStrategy.init data fast slow signal pip_size = Ok s →
  Forall untouched (MACDStrategy.df s) ∧ MACDStrategy.pip_size s = pip_size ∧
  MACDStrategy.fast s = fast ∧ MACDStrategy.slow s = slow ∧
  MACDStrategy.signal s = signal.
Proof.
  unfold MACDStrategy.init. case_bool_decide; [|done].
  destruct (get_float data "Close") as [close|]; simpl; [|done].
  destruct (MACDStrategy.raw_column _ _) as [raw|]; simpl; [|done].
  intros [= <-]. simpl. split; [|done].
  revert raw. induction close as [|c close IH]; intros [|v raw]; simpl;
    constructor; eauto.
  by repeat split.
Qed.

Lemma calculate_macd_untouched s s' :
  MACDStrategy.calculate_macd s = Ok s' →
  Forall untouched (MACDStrategy.df s) →
  Forall untouched (MACDStrategy.df s') ∧
  MACDStrategy.pip_size s' = MACDStrategy.pip_size s.
Proof.
  unfold MACDStrategy.calculate_macd.
  destruct (pd.ewm_mean (MACDStrategy.fast s) _) as [fast_ema|]; simpl; [|done].
  destruct (pd.ewm_mean (MACDStrategy.slow s) _) as [slow_ema|]; simpl; [|done].
  destruct (pd.ewm_mean (MACDStrategy.signal s) _) as [sig|]; simpl; [|done].
  intros [= <-] Hun. simpl. split; [|done].
  repeat apply untouched_assign; try done.
  all: by intros v [].
Qed.

Lemma run_strategy_trace data fast slow signal pip_size df :
  run_strategy data fast slow signal pip_size = Ok df →
  ∃ rows, Trace pip_size rows df (state_at pip_size rows).
Proof.
  unfold run_strategy.
  destruct (MACDStrategy.init _ _ _ _ _) as [s0|] eqn:H0; simpl; [|done].
  destruct (MACDStrategy.calculate_macd s0) as [s1|] eqn:H1; simpl; [|done].
  rewrite simulate_trades_scan.
  destruct (scan_rows _ _ _) as [[sc out]|] eqn:H2; simpl; [|done].
  intros [= <-].
  destruct (init_untouched _ _ _ _ _ _ H0) as (Hun0 & Hpip & _).
  destruct (calculate_macd_untouched _ _ H1 Hun0) as (Hun1 & Hpip1).
  exists (MACDStrategy.df s1). rewrite <-Hpip, <-Hpip1.
  eapply scan_trace; [done|].
  intros i r Hr. by eapply (Forall_lookup_1 _ _ _ _ Hun1).
Qed.

(** ** Reading trades *)

Lemma trade_of_Some df k t :
  trade_of df k = Some t →
  id t = k ∧
  (∃ re, df !! entryIndex t = Some re ∧ entry_row k re ∧
         entry_signal re = Some (direction t) ∧ entryPrice t = Close re) ∧
  match exitIndex t with
  | Some x => ∃ rx, df !! x = Some rx ∧ exit_row k rx ∧
                    exitPrice t = Some (Close rx) ∧
                    exitReason t = exit_type rx ∧ profitPips t = profit rx
  | None => ∀ x rx, df !! x = Some rx → ¬ exit_row k rx
  end.
Proof.
  unfold trade_of.
  destruct (list_find (entry_row k) df) as [[e re]|] eqn:He; simpl; [|done].
  destruct (entry_signal re) as [d|] eqn:Hd; simpl; [|done].
  intros [= <-]. simpl.
  apply list_find_Some in He as (He & Hek & _).
  split; [done|]. split; [by exists re|].
  destruct (list_find (exit_row k) df) as [[x rx]|] eqn:Hx; simpl.
  - apply list_find_Some in Hx as (Hx & Hxk & _). by exists rx.
  - intros x rx Hrx. rewrite list_find_None, Forall_lookup in Hx. eauto.
Qed.

Lemma trade_of_is_Some df k e re :
  df !! e = Some re → entry_row k re → is_Some (trade_of df k).
Proof.
  intros He Hek. unfold trade_of.
  destruct (list_find (entry_row k) df) as [[e' re']|] eqn:Hf; simpl.
  - apply list_find_Some in Hf as (_ & [_ [d Hd]] & _). rewrite Hd. simpl. eauto.
  - rewrite list_find_None, Forall_lookup in Hf. by destruct (Hf e re He).
Qed.

(** ** The simulator: the claims about trades *)

(** C10: the bar that opens a trade never closes it.  An entry row carries
    no exit signal, exit type or profit, whatever the histogram on that bar,
    and the exit bar of a closed trade lies strictly after its entry bar. *)
Theorem entry_bar_never_exits data fast slow signal pip_size df :
  run_strategy data fast slow signal pip_size = Ok df →
  (∀ i r, df !! i = Some r → is_Some (entry_signal r) →
          exit_signal r = None ∧ exit_type r = None ∧ profit r = None) ∧
  (∀ k t x, trade_of df k = Some t → exitIndex t = Some x → entryIndex t < x).
Proof.
  intros [rows T]%run_strategy_trace. split.
  - intros i r Hr He.
    destruct (trade_id r) as [k|] eqn:Hk.
    + by destruct (entry_at T i r k Hr (conj Hk He)) as (_ & _ & _ & _ & _ & _ & ?).
    + destruct (no_id_at T i r Hr Hk) as (_ & _ & Hne & _).
      rewrite Hne in He. by destruct He.
  - intros k t x (_ & (re & He & Hek & _) & Hx)%trade_of_Some Hxi.
    rewrite Hxi in Hx. destruct Hx as (rx & Hrx & Hxk & _).
    by eapply (entry_before_exit T).
Qed.

Lemma entry_bar_never_exits_witness :
  run_strategy demo_signals 55 2 8 (num 1) = Ok demo_df ∧
  (∀ i r, demo_df !! i = Some r → is_Some (entry_signal r) →
          exit_signal r = None ∧ exit_type r = None ∧ profit r = None) ∧
  (∀ k t x, trade_of demo_df k = Some t → exitIndex t = Some x →
            entryIndex t < x).
Proof.
  assert (run_strategy demo_signals 55 2 8 (num 1) = Ok demo_df) as H
    by (vm_compute; reflexivity).
  split; [exact H|]. exact (entry_bar_never_exits _ _ _ _ _ _ H).
Defined.

Lemma spans_iff_id pip_size rows df st k t i r :
  Trace pip_size rows df st →
  trade_of df k = Some t → df !! i = Some r →
  spans (length df) t i ↔ trade_id r = Some k.
Proof.
  intros T (_ & (re & He & Hek & _) & Hx)%trade_of_Some Hr.
  rewrite (id_iff_between T i r k Hr). unfold spans. split.
  - intros [[Hle _] Hxi]. exists (entryIndex t), re.
    split; [done|]. split; [done|]. split; [done|].
    intros x rx Hrx Hxk. destruct (exitIndex t) as [x0|].
    + destruct Hx as (rx0 & Hrx0 & Hxk0 & _).
      by rewrite (exit_unique T x x0 rx rx0 k).
    + by destruct (Hx x rx).
  - intros (e & re' & He' & Hek' & Hle & Hno).
    rewrite (entry_unique T (entryIndex t) e re re' k) by done.
    split; [split; [done|by eapply lookup_lt_Some]|].
    destruct (exitIndex t) as [x0|]; [|done].
    destruct Hx as (rx0 & Hrx0 & Hxk0 & _). eauto.
Qed.

(** C2: after the pass the [in_position] flag of a bar is set exactly when
    the bar carries a trade id, that is, exactly when it lies in the
    interval of some trade from its entry bar to its exit bar (or to the
    last bar if the trade is still open); an exit bar is marked
    in-position. *)
Theorem in_position_iff_in_trade data fast slow signal pip_size df :
  run_strategy data fast slow signal pip_size = Ok df →
  ∀ i r, df !! i = Some r →
    (in_position r = true ↔ is_Some (trade_id r)) ∧
    (in_position r = true ↔
       ∃ k t, trade_of df k = Some t ∧ spans (length df) t i) ∧
    (is_Some (exit_signal r) → in_position r = true).
Proof.
  intros [rows T]%run_strategy_trace i r Hr.
  destruct (in_position_at T i r Hr) as [Hip Hxs].
  assert (in_position r = true ↔ is_Some (trade_id r)) as Hiff.
  { rewrite Hip. apply bool_decide_eq_true. }
  split; [done|]. split; [|by intros ?%Hxs%Hiff].
  rewrite Hiff. split.
  - intros [k Hk].
    pose proof Hk as (e & re & He & Hek & _)%(id_iff_between T i r k Hr).
    destruct (trade_of_is_Some df k e re He Hek) as [t Ht].
    exists k, t. split; [done|]. by apply (spans_iff_id _ _ _ _ _ _ _ _ T Ht Hr).
  - intros (k & t & Ht & Hsp). exists k.
    by apply (spans_iff_id _ _ _ _ _ _ _ _ T Ht Hr).
Qed.

Lemma in_position_iff_in_trade_witness :
  run_strategy demo_signals 55 2 8 (num 1) = Ok demo_df ∧
  ∀ i r, demo_df !! i = Some r →
    (in_position r = true ↔ is_Some (trade_id r)) ∧
    (in_position r = true ↔
       ∃ k t, trade_of demo_df k = Some t ∧ spans (length demo_df) t i) ∧
    (is_Some (exit_signal r) → in_position r = true).
Proof.
  assert (run_strategy demo_signals 55 2 8 (num 1) = Ok demo_df) as H
    by (vm_compute; reflexivity).
  split; [exact H|]. exact (in_position_iff_in_trade _ _ _ _ _ _ H).
Defined.

(** C4: a crossover seen while a position is open only closes it.  The exit
    bar carries no entry signal, and for consecutive trades the earlier one
    is closed on a bar strictly before the entry bar of the later one. *)
Theorem exit_bar_never_reenters data fast slow signal pip_size df :
  run_strategy data fast slow signal pip_size = Ok df →
  (∀ i r, df !! i = Some r → is_Some (exit_signal r) → entry_signal r = None) ∧
  (∀ k t t', trade_of df k = Some t → trade_of df (S k) = Some t' →
             ∃ x, exitIndex t = Some x ∧ x < entryIndex t').
Proof.
  intros [rows T]%run_strategy_trace. split.
  - intros i r Hr Hx.
    destruct (in_position_at T i r Hr) as [_ [k Hk]]; [done|].
    by destruct (exit_at T i r k Hr (conj Hk Hx)) as (_ & _ & _ & ? & _).
  - intros k t t' (_ & (re & He & Hek & _) & Hx)%trade_of_Some
                  (_ & (re' & He' & Hek' & _) & _)%trade_of_Some.
    destruct (entry_at T _ re k He Hek) as (_ & Hk & _).
    destruct (entry_at T _ re' (S k) He' Hek') as (Hflat & Hk' & _).
    pose proof (row_index T _ _ He') as Hn.
    destruct (exit_exists T (entryIndex t')) as (x & rx & Hlt & Hrx & Hxk);
      [lia|done|lia|].
    replace (trade_counter (state_at pip_size rows (entryIndex t')))
      with k in Hxk by lia.
    destruct (exitIndex t) as [x0|].
    + destruct Hx as (rx0 & Hrx0 & Hxk0 & _). exists x0. split; [done|].
      by rewrite (exit_unique T x0 x rx0 rx k).
    + by destruct (Hx x rx).
Qed.

Lemma exit_bar_never_reenters_witness :
  run_strategy demo_signals 55 2 8 (num 1) = Ok demo_df ∧
  (∀ i r, demo_df !! i = Some r → is_Some (exit_signal r) →
          entry_signal r = None) ∧
  (∀ k t t', trade_of demo_df k = Some t → trade_of demo_df (S k) = Some t' →
             ∃ x, exitIndex t = Some x ∧ x < entryIndex t').
Proof.
  assert (run_strategy demo_signals 55 2 8 (num 1) = Ok demo_df) as H
    by (vm_compute; reflexivity).
  split; [exact H|]. exact (exit_bar_never_reenters _ _ _ _ _ _ H).
Defined.

(** C8: at most one trade is open at any bar.  No bar lies in the intervals
    of two different trades, and trade ids count the entry bars: the trade
    entered at bar [e] has id one plus the number of entry bars before [e],
    so ids start at 1 and increase strictly in entry order. *)
Theorem one_trade_at_a_time data fast slow signal pip_size df :
  run_strategy data fast slow signal pip_size = Ok df →
  (∀ k k' t t' i, trade_of df k = Some t → trade_of df k' = Some t' →
     spans (length df) t i → spans (length df) t' i → k = k') ∧
  (∀ k t, trade_of df k = Some t →
     k = S (length (filter (λ r, is_Some (entry_signal r))
                       (take (entryIndex t) df)))) ∧
  (∀ k k' t t', trade_of df k = Some t → trade_of df k' = Some t' →
     (k < k' ↔ entryIndex t < entryIndex t')).
Proof.
  intros [rows T]%run_strategy_trace. split; [|split].
  - intros k k' t t' i Ht Ht' Hsp Hsp'.
    assert (is_Some (df !! i)) as [r Hr].
    { apply lookup_lt_is_Some. by destruct Hsp as [[_ ?] _]. }
    apply (spans_iff_id _ _ _ _ _ _ _ _ T Ht Hr) in Hsp.
    apply (spans_iff_id _ _ _ _ _ _ _ _ T Ht' Hr) in Hsp'. congruence.
  - intros k t (_ & (re & He & Hek & _) & _)%trade_of_Some.
    destruct (entry_at T _ re k He Hek) as (_ & Hk & _).
    pose proof (row_index T _ _ He) as Hn.
    rewrite <-(counter_counts T) by lia. lia.
  - intros k k' t t' (_ & (re & He & Hek & _) & _)%trade_of_Some
                     (_ & (re' & He' & Hek' & _) & _)%trade_of_Some.
    by eapply (entry_order T).
Qed.

Lemma one_trade_at_a_time_witness :
  run_strategy demo_signals 55 2 8 (num 1) = Ok demo_df ∧
  (∀ k k' t t' i, trade_of demo_df k = Some t → trade_of demo_df k' = Some t' →
     spans (length demo_df) t i → spans (length demo_df) t' i → k = k') ∧
  (∀ k t, trade_of demo_df k = Some t →
     k = S (length (filter (λ r, is_Some (entry_signal r))
                       (take (entryIndex t) demo_df)))) ∧
  (∀ k k' t t', trade_of demo_df k = Some t → trade_of demo_df k' = Some t' →
     (k < k' ↔ entryIndex t < entryIndex t')).
Proof.
  assert (run_strategy demo_signals 55 2 8 (num 1) = Ok demo_df) as H
    by (vm_compute; reflexivity).
  split; [exact H|]. exact (one_trade_at_a_time _ _ _ _ _ _ H).
Defined.

(** C3: while a position is open the cross reversal is tried first.  On a
    bar that belongs to a trade of direction [d] and is not its entry bar,
    an opposite raw signal closes the trade with reason [ema_cross] whatever
    the histogram; reason [macd] is recorded only when the raw signal is not
    the opposite one and the histogram is against the position. *)
Theorem cross_reversal_first data fast slow signal pip_size df :
  run_strategy data fast slow signal pip_size = Ok df →
  ∀ i r k t,
    df !! i = Some r → trade_id r = Some k → entry_signal r = None →
    trade_of df k = Some t →
    (raw_sig r = Some (opposite (direction t)) →
       exit_type r = Some ema_cross) ∧
    (exit_type r = Some ema_cross →
       raw_sig r = Some (opposite (direction t))) ∧
    (exit_type r = Some macd →
       raw_sig r ≠ Some (opposite (direction t)) ∧
       ∃ h, MACD_hist r = Some h ∧ adverse (direction t) h) ∧
    (raw_sig r ≠ Some (opposite (direction t)) →
       ∀ h, MACD_hist r = Some h → adverse (direction t) h →
            exit_type r = Some macd).
Proof.
  intros [rows T]%run_strategy_trace i r k t Hr Hk Hne
    (_ & (re & He & Hek & Hd & _) & _)%trade_of_Some.
  destruct (id_at T i r k Hr Hk) as (_ & [[_ Hes]|(Hin & Htc & _)]).
  { rewrite Hne in Hes. by destruct Hes. }
  pose proof (row_index T i r Hr) as Hn.
  destruct (open_state T i k _ re ltac:(lia) Htc He Hek) as [Hpos _].
  rewrite Hd in Hpos.
  destruct (open_bar T i r Hr Hin)
    as [(d' & Hraw & Hopp & Hxt)|[(Hraw & Hm & Hxt)|(Hraw & Hm & Hxt)]];
    rewrite Hpos in *; rewrite Hxt.
  - assert (d' = opposite (direction t)) as ->
      by (destruct d', (direction t); simpl; congruence).
    split_and!; done.
  - assert (raw_sig r ≠ Some (opposite (direction t))) as Hneq.
    { destruct Hraw as [-> | ->]; [done|]. by destruct (direction t). }
    split_and!; try done. intros _. split; [done|].
    unfold MACDStrategy.macd_exit in Hm.
    destruct (direction t), (MACD_hist r) as [h|]; simplify_eq;
      exists h; (split; [done|]); unfold adverse;
      match goal with
      | H : bool_decide _ = true |- _ => exact (proj1 (bool_decide_eq_true _) H)
      end.
  - assert (raw_sig r ≠ Some (opposite (direction t))) as Hneq.
    { destruct Hraw as [-> | ->]; [done|]. by destruct (direction t). }
    split_and!; try done. intros _ h Hh Hadv.
    unfold MACDStrategy.macd_exit in Hm. rewrite Hh in Hm.
    destruct (direction t); simplify_eq; unfold adverse in Hadv;
      match goal with
      | H : bool_decide _ = false |- _ =>
          by destruct (proj1 (bool_decide_eq_false _) H)
      end.
Qed.

Lemma cross_reversal_first_witness :
  ∃ r t,
    run_strategy demo_signals 55 2 8 (num 1) = Ok demo_df ∧
    demo_df !! 2 = Some r ∧ trade_id r = Some 1 ∧ entry_signal r = None ∧
    trade_of demo_df 1 = Some t ∧
    raw_sig r = Some (opposite (direction t)) ∧
    exit_type r = Some ema_cross.
Proof.
  assert (run_strategy demo_signals 55 2 8 (num 1) = Ok demo_df) as H
    by (vm_compute; reflexivity).
  eexists _, _. split; [exact H|].
  do 5 (split; [vm_compute; reflexivity|]).
  refine (proj1 (cross_reversal_first _ _ _ _ _ _ H 2 _ 1 _ _ _ _ _) _);
    vm_compute; reflexivity.
Defined.

(** ** Rounding and the sign of the profit *)

Section rounding.
Local Open Scope Qc_scope.

Lemma round_half_even_pos q : (0 < round_half_even q)%Z ↔ (1 # 2 < q)%Q.
Proof.
  unfold round_half_even, Qlt. destruct q as [n d]. simpl.
  pose proof (Z.div_mod n (Zpos d) ltac:(lia)) as Hdm.
  pose proof (Z.mod_pos_bound n (Zpos d) ltac:(lia)) as Hb.
  set (f := (n `div` Zpos d)%Z) in *. set (r := (n `mod` Zpos d)%Z) in *.
  destruct (Z.ltb_spec (2 * r) (Zpos d));
    [|destruct (Z.ltb_spec (Zpos d) (2 * r))].
  - split; intros; nia.
  - split; intros; nia.
  - destruct (Z.even f) eqn:He.
    + split; intros; nia.
    + assert (f ≠ 0%Z) by (intros ->; done). split; intros; nia.
Qed.

Lemma round_half_even_nonneg q : (0 <= q)%Q → (0 <= round_half_even q)%Z.
Proof.
  unfold round_half_even, Qle. destruct q as [n d]. simpl. intros Hn.
  assert (0 <= n `div` Zpos d)%Z by (apply Z.div_pos; lia).
  repeat case_match; lia.
Qed.

Lemma this_num z : this (num z) = inject_Z z.
Proof. apply inject_Z_Qred. Qed.

Lemma this_div (x y : Qc) : (this (x / y) == this x / this y)%Q.
Proof.
  change (this (x / y)) with (Qred (this x * Qred (/ this y))).
  rewrite !Qred_correct. reflexivity.
Qed.

Lemma this_mult (x y : Qc) : (this (x * y) == this x * this y)%Q.
Proof.
  change (this (x * y)) with (Qred (this x * this y)).
  apply Qred_correct.
Qed.

(** Five decimals keep a positive value positive only above half a unit
    of the last place. *)
Lemma round_pos x : 0 < round x 5 ↔ num 1 / num 200000 < x.
Proof.
  unfold round. change (10 ^ Z.of_nat 5)%Z with 100000%Z.
  change (?a < ?b) with (this a < this b)%Q.
  rewrite !this_div, !this_num.
  set (z := round_half_even _).
  assert ((0 < z)%Z ↔ (1 # 2 < this (x * num 100000))%Q) as Hz
    by apply round_half_even_pos.
  rewrite this_mult, this_num in Hz.
  change (this 0) with 0%Q.
  assert ((0 < z)%Z ↔ (0 < inject_Z z)%Q) as Hi
    by (by rewrite (Zlt_Qlt 0 z)).
  change (inject_Z 100000) with (100000 # 1)%Q in *.
  change (inject_Z 1 / inject_Z 200000)%Q with (1 # 200000)%Q.
  change (inject_Z z / (100000 # 1))%Q with (inject_Z z * (1 # 100000))%Q.
  trans (0 < inject_Z z)%Q; [split; lra|].
  rewrite <-Hi, Hz. split; lra.
Qed.

Lemma round_nonneg x : 0 ≤ x → 0 ≤ round x 5.
Proof.
  unfold round. change (10 ^ Z.of_nat 5)%Z with 100000%Z.
  intros Hx.
  assert (0 <= round_half_even (this (x * num 100000)))%Z as Hz.
  { apply round_half_even_nonneg. rewrite this_mult, this_num.
    change (inject_Z 100000) with (100000 # 1)%Q.
    change (0 <= this x)%Q in Hx. lra. }
  set (z := round_half_even _) in *.
  change (0 <= this (num z / num 100000))%Q.
  rewrite this_div, !this_num.
  change (inject_Z z / inject_Z 100000)%Q with (inject_Z z * (1 # 100000))%Q.
  rewrite (Zle_Qle 0 z) in Hz. change (inject_Z 0) with 0%Q in Hz. lra.
Qed.

Lemma div_pos_iff (m pip : Qc) : 0 < pip → 0 < m / pip ↔ 0 < m.
Proof.
  intros Hpip. unfold Qcdiv.
  rewrite (Qcmult_lt_mono_pos_r 0 m (/ pip)) by by apply Qcinv_pos.
  by rewrite Qcmult_0_l.
Qed.

Lemma move_pos_iff t exit : 0 < move t exit ↔ favorable t exit.
Proof.
  unfold move, favorable. destruct (direction t); symmetry; apply Qclt_minus_iff.
Qed.

End rounding.

(** C7, as the code has it: the profit of a closed trade is the move in the
    direction of the trade, in pips, rounded to five decimals.  It is
    strictly positive only if the exit was favorable, never negative if the
    exit was favorable, and strictly positive exactly when the move exceeds
    0.000005 pip: a smaller favorable move is recorded as 0. *)
Theorem profit_sign data fast slow signal pip_size df :
  run_strategy data fast slow signal pip_size = Ok df →
  (0 < pip_size)%Qc →
  ∀ k t x, trade_of df k = Some t → exitIndex t = Some x →
    ∃ xp p,
      exitPrice t = Some xp ∧ profitPips t = Some p ∧
      p = round (move t xp / pip_size)%Qc 5 ∧
      ((0 < p)%Qc → favorable t xp) ∧
      (favorable t xp → (0 ≤ p)%Qc) ∧
      ((0 < p)%Qc ↔ (num 1 / num 200000 < move t xp / pip_size)%Qc).
Proof.
  intros [rows T]%run_strategy_trace Hpip k t x
    (_ & (re & He & Hek & Hd & Hep) & Hx)%trade_of_Some Hxi.
  rewrite Hxi in Hx. destruct Hx as (rx & Hrx & Hxk & Hxp & _ & Hpr).
  destruct (exit_at T x rx k Hrx Hxk)
    as (_ & Htc & _ & _ & how & entry & _ & Hentry & Hprofit & _).
  pose proof (row_index T x rx Hrx) as Hn.
  destruct (open_state T x k _ re ltac:(lia) Htc He Hek) as [Hpos Hprice].
  rewrite Hd in Hpos. rewrite Hprice in Hentry. injection Hentry as <-.
  rewrite Hpos, <-Hep in Hprofit.
  assert (profit rx = Some (round (move t (Close rx) / pip_size)%Qc 5)) as Hp.
  { rewrite Hprofit. unfold move. by destruct (direction t). }
  exists (Close rx), (round (move t (Close rx) / pip_size)%Qc 5).
  split; [done|]. split; [congruence|]. split; [done|].
  rewrite round_pos, <-move_pos_iff. split_and!.
  - intros Hlt. apply (div_pos_iff _ pip_size Hpip).
    etrans; [|exact Hlt]. done.
  - intros Hm. apply round_nonneg, Qclt_le_weak. by apply div_pos_iff.
  - done.
Qed.

Lemma profit_sign_witness :
  ∃ t xp p,
    run_strategy demo_signals 55 2 8 (num 1) = Ok demo_df ∧
    (0 < num 1)%Qc ∧
    trade_of demo_df 2 = Some t ∧ exitIndex t = Some 6 ∧
    exitPrice t = Some xp ∧ profitPips t = Some p ∧
    p = round (move t xp / num 1)%Qc 5 ∧
    ((0 < p)%Qc → favorable t xp) ∧
    (favorable t xp → (0 ≤ p)%Qc) ∧
    ((0 < p)%Qc ↔ (num 1 / num 200000 < move t xp / num 1)%Qc).
Proof.
  assert (run_strategy demo_signals 55 2 8 (num 1) = Ok demo_df) as H
    by (vm_compute; reflexivity).
  assert (0 < num 1)%Qc as Hpip by reflexivity.
  assert (∃ t, trade_of demo_df 2 = Some t ∧ exitIndex t = Some 6)
    as (t & Ht & Hx) by (eexists; split; vm_compute; reflexivity).
  destruct (profit_sign _ _ _ _ _ _ H Hpip 2 t 6 Ht Hx) as (xp & p & Hrest).
  exists t, xp, p. exact (conj H (conj Hpip (conj Ht (conj Hx Hrest)))).
Defined.
Lemma profit_sign_rounding_counterexample :
  ∃ df t,
    pipeline (bars tiny_close) 2 55 2 8 (num 1) = Ok df ∧
    trade_of df 1 = Some t ∧
    direction t = long ∧
    entryPrice t = num 12 ∧
    exitPrice t = Some (Q2Qc (12000001 # 1000000)) ∧
    (entryPrice t < Q2Qc (12000001 # 1000000))%Qc ∧
    profitPips t = Some (num 0) ∧
    ¬ (0 < num 0)%Qc.
Proof.
  eexists _, _.
  split; [vm_compute; reflexivity|].
  split; [vm_compute; reflexivity|].
  split; [reflexivity|].
  split; [apply Qc_is_canon; reflexivity|].
  split; [cbn [exitPrice]; f_equal; apply Qc_is_canon; reflexivity|].
  split; [reflexivity|].
  split; [cbn [profitPips]; f_equal; apply Qc_is_canon; reflexivity|].
  intros [=].
Qed.

(** ** The signal stage *)

Section signal_stage.
Local Open Scope Qc_scope.

Lemma ewm_go_length a xs : ∀ y, length (pd.ewm_go a y xs) = length xs.
Proof. induction xs as [|x xs IH]; intros y; simpl; [done|]. by rewrite IH. Qed.

Lemma ewm_go_lookup a xs : ∀ y i x t,
  xs !! i = Some x → (y :: pd.ewm_go a y xs) !! i = Some t →
  pd.ewm_go a y xs !! i = Some ((1 - a) * t + a * x).
Proof.
  induction xs as [|x' xs IH]; intros y i x t Hx Ht; [done|].
  destruct i as [|i]; simpl in *.
  - by simplify_eq.
  - eauto.
Qed.

Lemma ewm_mean_Ok span xs ys :
  pd.ewm_mean span xs = Ok ys ↔
  (1 ≤ span)%Z ∧
  ys = match xs with
       | [] => []
       | x :: xs' => x :: pd.ewm_go (pd.alpha span) x xs'
       end.
Proof.
  unfold pd.ewm_mean. case_bool_decide.
  - split; [done|]. intros [? _]. lia.
  - split; [intros [= <-]; split; [lia|done]|]. by intros [_ ->].
Qed.

Lemma ewm_mean_smoothed span xs ys :
  pd.ewm_mean span xs = Ok ys → smoothed span xs ys.
Proof.
  intros [_ ->]%ewm_mean_Ok. destruct xs as [|x xs]; [done|].
  split; [simpl; by rewrite ewm_go_length|]. split; [done|].
  intros i c t Hc Ht. simpl in Hc.
  change ((x :: pd.ewm_go (pd.alpha span) x xs) !! S i)
    with (pd.ewm_go (pd.alpha span) x xs !! i).
  rewrite (ewm_go_lookup _ _ _ _ _ _ Hc Ht). f_equal.
  unfold pd.alpha. ring.
Qed.

Lemma shift_length {A} (xs : list A) : length (pd.shift xs) = length xs.
Proof.
  unfold pd.shift. rewrite length_take. simpl. rewrite length_fmap. lia.
Qed.

Lemma shift_lookup_0 {A} (xs : list A) :
  xs ≠ [] → pd.shift xs !! 0%nat = Some None.
Proof. by destruct xs. Qed.

Lemma shift_lookup_S {A} (xs : list A) i x y :
  xs !! i = Some x → xs !! S i = Some y → pd.shift xs !! S i = Some (Some x).
Proof.
  intros Hx Hy%lookup_lt_Some. unfold pd.shift.
  rewrite lookup_take. case_decide; [|lia]. simpl.
  by rewrite list_lookup_fmap, Hx.
Qed.

Lemma crossings_length close ema :
  length ema = length close → length (crossings close ema) = length close.
Proof.
  intros Hlen. unfold crossings, pd.loc_set, pd.and, pd.lt, pd.gt,
    pd.le_na, pd.ge_na.
  rewrite !length_zip_with, !shift_length, length_replicate. lia.
Qed.

Lemma crossings_0 close ema :
  close ≠ [] → length ema = length close →
  crossings close ema !! 0%nat = Some None.
Proof.
  intros Hne Hlen. destruct close as [|c close]; [done|].
  destruct ema as [|t ema]; [done|].
  unfold crossings. simpl. by rewrite !andb_false_r.
Qed.

Lemma crossings_S close ema i c t pc pt :
  close !! S i = Some c → ema !! S i = Some t →
  close !! i = Some pc → ema !! i = Some pt →
  crossings close ema !! S i =
  Some (if bool_decide (c < t) && bool_decide (pt ≤ pc) then Some short
        else if bool_decide (t < c) && bool_decide (pc ≤ pt) then Some long
        else None).
Proof.
  intros Hc Ht Hpc Hpt.
  unfold crossings, pd.loc_set, pd.and, pd.lt, pd.gt, pd.le_na, pd.ge_na.
  rewrite !lookup_zip_with.
  rewrite (shift_lookup_S _ _ _ _ Hpc Hc), (shift_lookup_S _ _ _ _ Hpt Ht).
  rewrite Hc, Ht. simpl.
  rewrite lookup_replicate_2 by by eapply lookup_lt_Some. done.
Qed.

End signal_stage.

Lemma ema_col_not_Close (s : string) : "EMA_" +:+ s ≠ "Close".
Proof. cbv [String.append]. intros H. discriminate H. Qed.

Lemma sig_col_not_ema_col (s s' : string) : "Signal_" +:+ s ≠ "EMA_" +:+ s'.
Proof. cbv [String.append]. intros H. discriminate H. Qed.

Lemma process_ema_signals_unfold data P close :
  floats data !! "Close" = Some close →
  process_ema_signals data P =
  if bool_decide (EMASignal.required_cols ⊆ columns data) then
    ema ← pd.ewm_mean P close;
    Ok (set_label ("Signal_" +:+ pretty P +:+ "EMA") (crossings close ema)
          (set_float ("EMA_" +:+ pretty P) ema data))
  else Raise ValueError.
Proof.
  intros Hclose. unfold process_ema_signals, EMASignal.init.
  case_bool_decide; [|done]. simpl.
  unfold EMASignal.calculate_ema, get_float. simpl. rewrite Hclose. simpl.
  destruct (pd.ewm_mean P close) as [ema|]; simpl; [|done].
  unfold EMASignal.generate_signals, EMASignal.ema_col, EMASignal.sig_col,
    get_float, columns. simpl.
  rewrite bool_decide_true.
  2:{ apply elem_of_union_l, elem_of_dom. rewrite lookup_insert_eq. eauto. }
  rewrite lookup_insert_eq.
  rewrite lookup_insert_ne by apply ema_col_not_Close.
  by rewrite Hclose.
Qed.

Lemma process_ema_signals_Ok data P close out :
  floats data !! "Close" = Some close →
  process_ema_signals data P = Ok out →
  ∃ ema, pd.ewm_mean P close = Ok ema ∧
         floats out !! ("EMA_" +:+ pretty P) = Some ema ∧
         labels out !! ("Signal_" +:+ pretty P +:+ "EMA")
           = Some (crossings close ema).
Proof.
  intros Hclose. rewrite (process_ema_signals_unfold _ _ _ Hclose).
  case_bool_decide; [|done].
  destruct (pd.ewm_mean P close) as [ema|]; simpl; [|done].
  intros [= <-]. exists ema. split; [done|]. simpl. split.
  - rewrite lookup_delete_ne by apply sig_col_not_ema_col.
    apply lookup_insert_eq.
  - apply lookup_insert_eq.
Qed.

Lemma Qclt_asym (x y : Qc) : (x < y)%Qc → (y < x)%Qc → False.
Proof. intros H1 H2. by apply (Qclt_not_le _ _ H1), Qclt_le_weak. Qed.

Lemma Qclt_irrefl (x : Qc) : ¬ (x < x)%Qc.
Proof. intros H. exact (Qclt_asym _ _ H H). Qed.

(** C5: the crossover column.  The first bar never carries an event; from
    the second bar on the event is long exactly when Close is above the
    trend value and was at or below it on the previous bar, short exactly in
    the mirrored case, and absent otherwise.  A bar whose Close equals its
    trend value carries no event. *)
Theorem crossover_events data P out close :
  process_ema_signals data P = Ok out →
  floats data !! "Close" = Some close →
  ∃ trend ev,
    floats out !! ("EMA_" +:+ pretty P) = Some trend ∧
    labels out !! ("Signal_" +:+ pretty P +:+ "EMA") = Some ev ∧
    length trend = length close ∧ length ev = length close ∧
    (close ≠ [] → ev !! 0 = Some None) ∧
    (∀ i c t pc pt,
       close !! S i = Some c → trend !! S i = Some t →
       close !! i = Some pc → trend !! i = Some pt →
       (ev !! S i = Some (Some long) ↔ (t < c ∧ pc ≤ pt)%Qc) ∧
       (ev !! S i = Some (Some short) ↔ (c < t ∧ pt ≤ pc)%Qc) ∧
       (ev !! S i = Some None ↔
          ¬ (t < c ∧ pc ≤ pt)%Qc ∧ ¬ (c < t ∧ pt ≤ pc)%Qc)) ∧
    (∀ i c, close !! i = Some c → trend !! i = Some c → ev !! i = Some None).
Proof.
  intros Hrun Hclose.
  destruct (process_ema_signals_Ok _ _ _ _ Hclose Hrun)
    as (ema & Hema & Hf & Hl).
  destruct (ewm_mean_smoothed _ _ _ Hema) as (Hlen & _ & _).
  exists ema, (crossings close ema).
  split; [done|]. split; [done|]. split; [done|].
  split; [by apply crossings_length|].
  split; [intros; by apply crossings_0|].
  assert (∀ i c t pc pt,
    close !! S i = Some c → ema !! S i = Some t →
    close !! i = Some pc → ema !! i = Some pt →
    (crossings close ema !! S i = Some (Some long) ↔ (t < c ∧ pc ≤ pt)%Qc) ∧
    (crossings close ema !! S i = Some (Some short) ↔ (c < t ∧ pt ≤ pc)%Qc) ∧
    (crossings close ema !! S i = Some None ↔
       ¬ (t < c ∧ pc ≤ pt)%Qc ∧ ¬ (c < t ∧ pt ≤ pc)%Qc)) as Hcases.
  { intros i c t pc pt Hc Ht Hpc Hpt.
    rewrite (crossings_S _ _ _ _ _ _ _ Hc Ht Hpc Hpt).
    repeat case_bool_decide; simpl.
    all: try (exfalso; by eapply (Qclt_asym c t)).
    all: split_and!; split; try done; try tauto.
    all: try (intros [? ?]; by eauto using Qclt_asym).
    all: try (by intros [? ?]). }
  split; [done|].
  intros i c Hc Ht. destruct i as [|i].
  - apply crossings_0; [|done]. by intros ->.
  - assert (is_Some (close !! i)) as [pc Hpc].
    { apply lookup_lt_is_Some. apply lookup_lt_Some in Hc. lia. }
    assert (is_Some (ema !! i)) as [pt Hpt].
    { apply lookup_lt_is_Some. apply lookup_lt_Some in Ht. lia. }
    apply (Hcases i c c pc pt Hc Ht Hpc Hpt).
    split; intros [H%Qclt_irrefl _]; done.
Qed.

Lemma crossover_events_witness :
  ∃ out trend ev,
    process_ema_signals (bars scenario_close) 2 = Ok out ∧
    floats (bars scenario_close) !! "Close" = Some scenario_close ∧
    floats out !! "EMA_2" = Some trend ∧
    labels out !! "Signal_2EMA" = Some ev ∧
    length trend = length scenario_close ∧
    length ev = length scenario_close ∧
    (scenario_close ≠ [] → ev !! 0 = Some None) ∧
    (∀ i c t pc pt,
       scenario_close !! S i = Some c → trend !! S i = Some t →
       scenario_close !! i = Some pc → trend !! i = Some pt →
       (ev !! S i = Some (Some long) ↔ (t < c ∧ pc ≤ pt)%Qc) ∧
       (ev !! S i = Some (Some short) ↔ (c < t ∧ pt ≤ pc)%Qc) ∧
       (ev !! S i = Some None ↔
          ¬ (t < c ∧ pc ≤ pt)%Qc ∧ ¬ (c < t ∧ pt ≤ pc)%Qc)) ∧
    (∀ i c, scenario_close !! i = Some c → trend !! i = Some c →
            ev !! i = Some None).
Proof.
  assert (process_ema_signals (bars scenario_close) 2
          = Ok (signals_of scenario_close 2)) as H
    by (vm_compute; reflexivity).
  assert (floats (bars scenario_close) !! "Close" = Some scenario_close) as Hc
    by (vm_compute; reflexivity).
  destruct (crossover_events _ _ _ _ H Hc) as (trend & ev & Hrest).
  exists (signals_of scenario_close 2), trend, ev.
  exact (conj H (conj Hc Hrest)).
Defined.

Lemma assign_length {V : Type} (col : V → Row → Row) vs df :
  length vs = length df → length (assign col vs df) = length df.
Proof. intros Hlen. unfold assign. rewrite length_zip_with. lia. Qed.

Lemma fmap_assign_other {V W : Type} (get : Row → W) (col : V → Row → Row)
    vs df :
  (∀ v r, get (col v r) = get r) → length vs = length df →
  get <$> assign col vs df = get <$> df.
Proof.
  intros Hget. unfold assign. revert vs.
  induction df as [|r df IH]; intros [|v vs]; simpl; try done.
  intros [= Hlen]. by rewrite Hget, IH.
Qed.

Lemma fmap_assign_same {V : Type} (get : Row → V) (col : V → Row → Row)
    vs df :
  (∀ v r, get (col v r) = v) → length vs = length df →
  get <$> assign col vs df = vs.
Proof.
  intros Hget. unfold assign. revert vs.
  induction df as [|r df IH]; intros [|v vs]; simpl; try done.
  intros [= Hlen]. by rewrite Hget, IH.
Qed.

Ltac lens :=
  repeat first [rewrite length_fmap | rewrite assign_length by lens];
  try done; try lia.

Lemma ewm_mean_from_1 span xs :
  (1 ≤ span)%Z →
  pd.ewm_mean span xs =
  Ok match xs with
     | [] => []
     | x :: xs' => x :: pd.ewm_go (pd.alpha span) x xs'
     end.
Proof. intros H. unfold pd.ewm_mean. by rewrite bool_decide_false by lia. Qed.

Lemma calculate_macd_columns (s : MACDStrategy.t) :
  (1 ≤ MACDStrategy.fast s)%Z → (1 ≤ MACDStrategy.slow s)%Z →
  (1 ≤ MACDStrategy.signal s)%Z →
  ∃ s' fast_ema slow_ema signal_line,
    MACDStrategy.calculate_macd s = Ok s' ∧
    smoothed (MACDStrategy.fast s) (Close <$> MACDStrategy.df s) fast_ema ∧
    smoothed (MACDStrategy.slow s) (Close <$> MACDStrategy.df s) slow_ema ∧
    smoothed (MACDStrategy.signal s)
      (zip_with Qcminus fast_ema slow_ema) signal_line ∧
    Close <$> MACDStrategy.df s' = Close <$> MACDStrategy.df s ∧
    raw_sig <$> MACDStrategy.df s' = raw_sig <$> MACDStrategy.df s ∧
    MACD <$> MACDStrategy.df s'
      = Some <$> zip_with Qcminus fast_ema slow_ema ∧
    MACD_signal <$> MACDStrategy.df s' = Some <$> signal_line ∧
    MACD_hist <$> MACDStrategy.df s'
      = Some <$> zip_with Qcminus
                   (zip_with Qcminus fast_ema slow_ema) signal_line.
Proof.
  intros Hfast Hslow Hsig.
  unfold MACDStrategy.calculate_macd.
  set (close' := Close <$> MACDStrategy.df s).
  destruct (pd.ewm_mean (MACDStrategy.fast s) close') as [fe|] eqn:Hfe.
  2:{ by rewrite ewm_mean_from_1 in Hfe. }
  destruct (pd.ewm_mean (MACDStrategy.slow s) close') as [se|] eqn:Hse.
  2:{ by rewrite ewm_mean_from_1 in Hse. }
  simpl.
  destruct (pd.ewm_mean (MACDStrategy.signal s) (zip_with Qcminus fe se))
    as [sl|] eqn:Hsl.
  2:{ by rewrite ewm_mean_from_1 in Hsl. }
  simpl.
  pose proof (ewm_mean_smoothed _ _ _ Hfe) as Sfe.
  pose proof (ewm_mean_smoothed _ _ _ Hse) as Sse.
  pose proof (ewm_mean_smoothed _ _ _ Hsl) as Ssl.
  assert (length fe = length (MACDStrategy.df s)) as Lfe.
  { destruct Sfe as [-> _]. unfold close'. by rewrite length_fmap. }
  assert (length se = length (MACDStrategy.df s)) as Lse.
  { destruct Sse as [-> _]. unfold close'. by rewrite length_fmap. }
  assert (length (zip_with Qcminus fe se) = length (MACDStrategy.df s)) as Lm.
  { rewrite length_zip_with. lia. }
  assert (length sl = length (MACDStrategy.df s)) as Lsl.
  { destruct Ssl as [-> _]. done. }
  assert (length (zip_with Qcminus (zip_with Qcminus fe se) sl)
          = length (MACDStrategy.df s)) as Lh.
  { rewrite length_zip_with. lia. }
  eexists _, fe, se, sl. split; [done|].
  split; [done|]. split; [done|]. split; [done|]. simpl.
  split_and!.
  - rewrite (fmap_assign_other Close set_MACD_hist),
      (fmap_assign_other Close set_MACD_signal),
      (fmap_assign_other Close set_MACD); try done;
      try (by intros ? []); lens.
  - rewrite (fmap_assign_other raw_sig set_MACD_hist),
      (fmap_assign_other raw_sig set_MACD_signal),
      (fmap_assign_other raw_sig set_MACD); try done;
      try (by intros ? []); lens.
  - rewrite (fmap_assign_other MACD set_MACD_hist),
      (fmap_assign_other MACD set_MACD_signal),
      (fmap_assign_same MACD set_MACD); try done;
      try (by intros ? []); lens.
  - rewrite (fmap_assign_other MACD_signal set_MACD_hist),
      (fmap_assign_same MACD_signal set_MACD_signal); try done;
      try (by intros ? []); lens.
  - rewrite (fmap_assign_same MACD_hist set_MACD_hist); try done;
      try (by intros ? []); lens.
Qed.

(** C6: the smoother.  For a period of at least 1 the signal stage runs and
    its trend column starts at the first Close and then follows
    trend[i] = Close[i] * a + trend[i-1] * (1 - a) with a = 2 / (P + 1);
    [calculate_macd] applies the same smoother to Close with the fast and
    the slow period and to their difference with the signal period. *)
Theorem smoother_recurrence data P close (s : MACDStrategy.t) :
  (1 ≤ P)%Z →
  EMASignal.required_cols ⊆ columns data →
  floats data !! "Close" = Some close →
  (1 ≤ MACDStrategy.fast s)%Z → (1 ≤ MACDStrategy.slow s)%Z →
  (1 ≤ MACDStrategy.signal s)%Z →
  (∃ out trend,
     process_ema_signals data P = Ok out ∧
     floats out !! ("EMA_" +:+ pretty P) = Some trend ∧
     smoothed P close trend) ∧
  (∃ s' fast_ema slow_ema signal_line,
     MACDStrategy.calculate_macd s = Ok s' ∧
     smoothed (MACDStrategy.fast s) (Close <$> MACDStrategy.df s) fast_ema ∧
     smoothed (MACDStrategy.slow s) (Close <$> MACDStrategy.df s) slow_ema ∧
     smoothed (MACDStrategy.signal s)
       (zip_with Qcminus fast_ema slow_ema) signal_line ∧
     Close <$> MACDStrategy.df s' = Close <$> MACDStrategy.df s ∧
     MACD <$> MACDStrategy.df s'
       = Some <$> zip_with Qcminus fast_ema slow_ema ∧
     MACD_signal <$> MACDStrategy.df s' = Some <$> signal_line ∧
     MACD_hist <$> MACDStrategy.df s'
       = Some <$> zip_with Qcminus
                    (zip_with Qcminus fast_ema slow_ema) signal_line).
Proof.
  intros HP Hcols Hclose Hfast Hslow Hsig. split.
  - assert (process_ema_signals data P =
            Ok (set_label ("Signal_" +:+ pretty P +:+ "EMA")
                  (crossings close
                     match close with
                     | [] => []
                     | x :: xs' => x :: pd.ewm_go (pd.alpha P) x xs'
                     end)
                  (set_float ("EMA_" +:+ pretty P)
                     match close with
                     | [] => []
                     | x :: xs' => x :: pd.ewm_go (pd.alpha P) x xs'
                     end data))) as Hrun.
    { rewrite (process_ema_signals_unfold _ _ _ Hclose).
      rewrite bool_decide_true by done. by rewrite ewm_mean_from_1. }
    destruct (process_ema_signals_Ok _ _ _ _ Hclose Hrun) as (ema & He & Hf & _).
    eexists _, ema. split; [exact Hrun|]. split; [done|].
    by apply ewm_mean_smoothed.
  - destruct (calculate_macd_columns s Hfast Hslow Hsig)
      as (s' & fe & se & sl & H1 & H2 & H3 & H4 & H5 & _ & H6 & H7 & H8).
    by exists s', fe, se, sl.
Qed.

Lemma smoother_recurrence_witness :
  let s := MACDStrategy.mk
             (zip_with MACDStrategy.fresh_row scenario_close
                [None; Some long; Some short; None]) 55 89 8 (num 1) in
  (1 ≤ 2)%Z ∧
  EMASignal.required_cols ⊆ columns (bars scenario_close) ∧
  floats (bars scenario_close) !! "Close" = Some scenario_close ∧
  (∃ out trend,
     process_ema_signals (bars scenario_close) 2 = Ok out ∧
     floats out !! "EMA_2" = Some trend ∧
     smoothed 2 scenario_close trend) ∧
  (∃ s' fast_ema slow_ema signal_line,
     MACDStrategy.calculate_macd s = Ok s' ∧
     smoothed 55 scenario_close fast_ema ∧
     smoothed 89 scenario_close slow_ema ∧
     smoothed 8 (zip_with Qcminus fast_ema slow_ema) signal_line ∧
     Close <$> MACDStrategy.df s' = scenario_close ∧
     MACD <$> MACDStrategy.df s'
       = Some <$> zip_with Qcminus fast_ema slow_ema ∧
     MACD_signal <$> MACDStrategy.df s' = Some <$> signal_line ∧
     MACD_hist <$> MACDStrategy.df s'
       = Some <$> zip_with Qcminus
                    (zip_with Qcminus fast_ema slow_ema) signal_line).
Proof.
  intros s.
  assert (1 ≤ 2)%Z as H1 by lia.
  assert (EMASignal.required_cols ⊆ columns (bars scenario_close)) as H2.
  { apply (bool_decide_unpack _). vm_compute. exact I. }
  assert (floats (bars scenario_close) !! "Close" = Some scenario_close) as H3
    by (vm_compute; reflexivity).
  split; [exact H1|]. split; [exact H2|]. split; [exact H3|].
  exact (smoother_recurrence (bars scenario_close) 2 scenario_close s
           H1 H2 H3 ltac:(simpl; lia) ltac:(simpl; lia) ltac:(simpl; lia)).
Defined.

(** C9, as the code has it: the signal stage fails with a ValueError, and
    returns no frame, when the period is below 1; an empty series with a
    period of at least 1 is accepted and yields empty trend and crossover
    columns. *)
Theorem signal_stage_errors data P close :
  floats data !! "Close" = Some close →
  ((P < 1)%Z → process_ema_signals data P = Raise ValueError) ∧
  ((1 ≤ P)%Z → EMASignal.required_cols ⊆ columns data → close = [] →
     ∃ out, process_ema_signals data P = Ok out ∧
            floats out !! ("EMA_" +:+ pretty P) = Some [] ∧
            labels out !! ("Signal_" +:+ pretty P +:+ "EMA") = Some []).
Proof.
  intros Hclose. rewrite (process_ema_signals_unfold _ _ _ Hclose). split.
  - intros HP. case_bool_decide; [|done].
    unfold pd.ewm_mean. by rewrite bool_decide_true by done.
  - intros HP Hcols ->. rewrite bool_decide_true by done.
    unfold pd.ewm_mean. rewrite bool_decide_false by lia. simpl.
    eexists. split; [done|]. simpl. split.
    + rewrite lookup_delete_ne by apply sig_col_not_ema_col.
      apply lookup_insert_eq.
    + apply lookup_insert_eq.
Qed.

Lemma signal_stage_errors_witness :
  floats (bars scenario_close) !! "Close" = Some scenario_close ∧
  (0 < 1)%Z ∧
  process_ema_signals (bars scenario_close) 0 = Raise ValueError.
Proof.
  assert (floats (bars scenario_close) !! "Close" = Some scenario_close) as H
    by (vm_compute; reflexivity).
  assert (0 < 1)%Z as H0 by lia.
  split; [exact H|]. split; [exact H0|].
  exact (proj1 (signal_stage_errors _ _ _ H) H0).
Defined.

(** C9, counterexample: the signal stage accepts an empty series and
    returns a frame with empty trend and crossover columns. *)
Lemma empty_series_is_accepted :
  ∃ out, process_ema_signals (bars []) 89 = Ok out ∧
         floats out !! "EMA_89" = Some [] ∧
         labels out !! "Signal_89EMA" = Some [].
Proof.
  eexists. split; [vm_compute; reflexivity|].
  split; vm_compute; reflexivity.
Qed.


(** The loop on the four bars of the scenario never reads the histogram. *)
Lemma scenario_scan (rows : list Row) :
  Close <$> rows = scenario_close →
  raw_sig <$> rows = [None; Some long; Some short; None] →
  Forall untouched rows →
  ∃ sc out, scan_rows (num 1) MACDStrategy.scan0 rows = Ok (sc, out) ∧
            scenario_outcome (finish <$> out).
Proof.
  intros Hclose Hraw Hun.
  destruct rows as [|r0 [|r1 [|r2 [|r3 [|? ?]]]]]; try done.
  destruct r0 as [c0 g0 es0 xs0 ip0 pr0 xt0 ti0 m0 ms0 mh0].
  destruct r1 as [c1 g1 es1 xs1 ip1 pr1 xt1 ti1 m1 ms1 mh1].
  destruct r2 as [c2 g2 es2 xs2 ip2 pr2 xt2 ti2 m2 ms2 mh2].
  destruct r3 as [c3 g3 es3 xs3 ip3 pr3 xt3 ti3 m3 ms3 mh3].
  injection Hclose as -> -> -> ->. injection Hraw as -> -> -> ->.
  rewrite !Forall_cons in Hun.
  destruct Hun as ((? & ? & ? & ? & ?) & (? & ? & ? & ? & ?) &
                   (? & ? & ? & ? & ?) & (? & ? & ? & ? & ?) & _).
  simpl in *. subst.
  eexists _, _. split; [vm_compute; reflexivity|].
  unfold scenario_outcome.
  split; [reflexivity|]. split; [reflexivity|].
  split.
  { vm_compute. do 4 f_equal. apply Qc_is_canon; reflexivity. }
  split; [reflexivity|].
  split; [|reflexivity].
  vm_compute. do 3 f_equal. apply Qc_is_canon; reflexivity.
Qed.

(** C1, as the code has it: the scenario of the specification.  The
    simulator reads the crossover column named after its slow period, so
    the slow period has to be the trend period 2; the fast and the signal
    period do not matter, the histogram is never consulted. *)
Theorem scenario_run fast signal :
  (1 ≤ fast)%Z → (1 ≤ signal)%Z →
  ∃ df, pipeline (bars scenario_close) 2 fast 2 signal (num 1) = Ok df ∧
        scenario_outcome df.
Proof.
  intros Hfast Hsignal.
  assert (process_ema_signals (bars scenario_close) 2
          = Ok (signals_of scenario_close 2)) as Hsig
    by (vm_compute; reflexivity).
  set (s0 := MACDStrategy.mk
               (zip_with MACDStrategy.fresh_row scenario_close
                  [None; Some long; Some short; None])
               fast 2 signal (num 1)).
  assert (MACDStrategy.init (signals_of scenario_close 2) fast 2 signal (num 1)
          = Ok s0) as Hinit by (vm_compute; reflexivity).
  destruct (calculate_macd_columns s0 Hfast ltac:(simpl; lia) Hsignal)
    as (s1 & _ & _ & _ & Hcalc & _ & _ & _ & HClose & Hraw & _).
  destruct (init_untouched _ _ _ _ _ _ Hinit) as (Hun0 & _).
  destruct (calculate_macd_untouched _ _ Hcalc Hun0) as (Hun1 & Hpip).
  destruct (scenario_scan (MACDStrategy.df s1) HClose Hraw Hun1)
    as (sc & out & Hscan & Hout).
  exists (finish <$> out). split; [|done].
  unfold pipeline, run_strategy. rewrite Hsig. cbn [mbind result_bind].
  rewrite Hinit. cbn [mbind result_bind]. rewrite Hcalc.
  cbn [mbind result_bind]. rewrite simulate_trades_scan, Hpip.
  change (MACDStrategy.pip_size s0) with (num 1). by rewrite Hscan.
Qed.

Lemma scenario_run_witness :
  (1 ≤ 55)%Z ∧ (1 ≤ 8)%Z ∧
  ∃ df, pipeline (bars scenario_close) 2 55 2 8 (num 1) = Ok df ∧
        scenario_outcome df.
Proof.
  assert (1 ≤ 55)%Z as H1 by lia.
  assert (1 ≤ 8)%Z as H2 by lia.
  split; [exact H1|]. split; [exact H2|].
  exact (scenario_run 55 8 H1 H2).
Defined.

(** C1, counterexample: with the slow period left at its default 89 the
    strategy looks for the column 'Signal_89EMA', which the signal stage
    run with period 2 did not write, and the pipeline stops with a
    ValueError instead of producing the expected rows. *)
Lemma scenario_needs_matching_slow_period :
  pipeline (bars scenario_close) 2 55 89 8 (num 1) = Raise ValueError.
Proof. vm_compute. reflexivity. Qed.

(** ** The strategy always completes on well-formed input *)

Lemma bar_total pip_size sc r :
  is_Some (MACD_hist r) →
  (in_trade sc = true → is_Some (entry_price sc)) →
  ∃ sc' r', bar pip_size sc r = Ok (sc', r') ∧
            (in_trade sc' = true → is_Some (entry_price sc')).
Proof.
  intros [h Hh] Hinv.
  destruct (in_trade sc) eqn:Hin.
  - destruct Hinv as [entry Hentry]; [done|].
    destruct (decide (raw_sig r = None ∨ raw_sig r = position sc)) as [Hraw|Hraw].
    + destruct (MACDStrategy.macd_exit (position sc) (MACD_hist r))
        as [[|]|] eqn:Hm.
      * eexists _, _. split; [apply bar_Step; by eapply step_macd|done].
      * eexists _, _. split; [apply bar_Step; by eapply step_hold|].
        rewrite Hentry. eauto.
      * unfold MACDStrategy.macd_exit in Hm. rewrite Hh in Hm.
        by destruct (position sc) as [[|]|].
    + destruct (raw_sig r) as [d|] eqn:Hd; [|by destruct Hraw; left].
      eexists _, _. split; [apply bar_Step; eapply step_cross; eauto|done].
  - destruct (raw_sig r) as [d|] eqn:Hd.
    + eexists _, _. split; [apply bar_Step; by eapply step_enter|].
      simpl. eauto.
    + eexists _, _. split; [apply bar_Step; by eapply step_flat|].
      by rewrite Hin.
Qed.

Lemma scan_rows_total pip_size rows : ∀ sc,
  Forall (λ r, is_Some (MACD_hist r)) rows →
  (in_trade sc = true → is_Some (entry_price sc)) →
  ∃ sc' out, scan_rows pip_size sc rows = Ok (sc', out).
Proof.
  induction rows as [|r rows IH]; intros sc Hh Hinv; simpl.
  - eauto.
  - apply Forall_cons in Hh as [Hr Hrows].
    destruct (bar_total pip_size sc r Hr Hinv) as (sc1 & r1 & -> & Hinv1).
    simpl. destruct (IH sc1 Hrows Hinv1) as (sc2 & out & ->). simpl. eauto.
Qed.

Lemma run_strategy_total data fast slow signal pip_size close :
  floats data !! "Close" = Some close →
  MACDStrategy.raw_sig_name slow ∈ columns data →
  (1 ≤ fast)%Z → (1 ≤ slow)%Z → (1 ≤ signal)%Z →
  ∃ df, run_strategy data fast slow signal pip_size = Ok df.
Proof.
  intros Hclose Hraw Hfast Hslow Hsignal. unfold run_strategy.
  assert (∃ s0, MACDStrategy.init data fast slow signal pip_size = Ok s0)
    as [s0 Hinit].
  { unfold MACDStrategy.init. rewrite bool_decide_true.
    2:{ split; [|done]. apply elem_of_union_l, elem_of_dom. eauto. }
    unfold get_float. rewrite Hclose. simpl.
    unfold MACDStrategy.raw_column.
    apply elem_of_union in Hraw as [[v Hv]%elem_of_dom|[v Hv]%elem_of_dom].
    - destruct (labels data !! _); rewrite ?Hv; simpl; eauto.
    - rewrite Hv. simpl. eauto. }
  rewrite Hinit. simpl.
  destruct (init_untouched _ _ _ _ _ _ Hinit) as (_ & _ & Hf & Hs & Hg).
  destruct (calculate_macd_columns s0)
    as (s1 & fe & se & sl & Hcalc & _ & _ & _ & _ & _ & _ & _ & Hhist);
    [lia..|].
  rewrite Hcalc. simpl. rewrite simulate_trades_scan.
  destruct (scan_rows_total (MACDStrategy.pip_size s1) (MACDStrategy.df s1)
              MACDStrategy.scan0) as (sc & out & ->); [|done|simpl; eauto].
  apply Forall_forall. intros r Hr.
  apply (list_elem_of_fmap_2 MACD_hist) in Hr. rewrite Hhist in Hr.
  apply list_elem_of_fmap in Hr as (h & -> & _). eauto.
Qed.

(** ** More on the signal stage *)

Lemma process_ema_signals_Close data P out :
  process_ema_signals data P = Ok out →
  ∃ close, floats data !! "Close" = Some close.
Proof.
  unfold process_ema_signals, EMASignal.init.
  case_bool_decide; [|done]. simpl.
  unfold EMASignal.calculate_ema, get_float. simpl.
  destruct (floats data !! "Close") as [close|]; [eauto|].
  by case_bool_decide.
Qed.

Lemma sig_col_not_Close (s : string) : "Signal_" +:+ s ≠ "Close".
Proof. cbv [String.append]. intros H. discriminate H. Qed.

(** X1: the outcome of the signal stage on a frame with a numeric Close
    column.  It completes exactly when the four price columns are present
    and the period is at least 1; in every other case it raises a
    ValueError. *)
Theorem signal_stage_outcome data P close :
  floats data !! "Close" = Some close →
  (EMASignal.required_cols ⊆ columns data ∧ (1 ≤ P)%Z →
     ∃ out, process_ema_signals data P = Ok out) ∧
  (¬ (EMASignal.required_cols ⊆ columns data ∧ (1 ≤ P)%Z) →
     process_ema_signals data P = Raise ValueError).
Proof.
  intros Hclose. rewrite (process_ema_signals_unfold _ _ _ Hclose). split.
  - intros [Hcols HP]. rewrite bool_decide_true by done.
    rewrite ewm_mean_from_1 by done. simpl. eauto.
  - intros Hnot. case_bool_decide as Hcols; [|done].
    unfold pd.ewm_mean. rewrite bool_decide_true; [done|].
    destruct (decide (P < 1)%Z); [done|]. destruct Hnot. split; [done|lia].
Qed.

Lemma signal_stage_outcome_witness :
  floats (bars scenario_close) !! "Close" = Some scenario_close ∧
  (EMASignal.required_cols ⊆ columns (bars scenario_close) ∧ (1 ≤ 2)%Z) ∧
  ∃ out, process_ema_signals (bars scenario_close) 2 = Ok out.
Proof.
  assert (floats (bars scenario_close) !! "Close" = Some scenario_close) as H
    by (vm_compute; reflexivity).
  assert (EMASignal.required_cols ⊆ columns (bars scenario_close) ∧ (1 ≤ 2)%Z)
    as H2.
  { split; [|lia]. apply (bool_decide_unpack _). vm_compute. exact I. }
  split; [exact H|]. split; [exact H2|].
  exact (proj1 (signal_stage_outcome _ _ _ H) H2).
Defined.

(** X2: the order of the two steps.  On an object whose frame has no
    'EMA_{period}' column [generate_signals] raises a RuntimeError; on the
    object returned by [calculate_ema] it always completes. *)
Theorem generate_signals_needs_ema data P self :
  EMASignal.init data P = Ok self →
((("EMA_" +:+ pretty P) ∉ columns data) →
     EMASignal.generate_signals self = Raise RuntimeError) ∧
  (∀ self', EMASignal.calculate_ema self = Ok self' →
     ∃ self'', EMASignal.generate_signals self' = Ok self'').
Proof.
  unfold EMASignal.init. case_bool_decide; [|done]. intros [= <-]. split.
  - intros Hno. unfold EMASignal.generate_signals, EMASignal.ema_col. simpl.
    by rewrite bool_decide_false.
  - intros self'. unfold EMASignal.calculate_ema, get_float. simpl.
    destruct (floats data !! "Close") as [close|] eqn:Hclose;
      [|by case_bool_decide].
    simpl. destruct (pd.ewm_mean P close) as [ema|]; simpl; [|done].
    intros [= <-].
    unfold EMASignal.generate_signals, EMASignal.ema_col, get_float, columns.
    simpl. rewrite bool_decide_true.
    2:{ apply elem_of_union_l, elem_of_dom. rewrite lookup_insert_eq. eauto. }
    rewrite lookup_insert_eq.
    rewrite lookup_insert_ne by apply ema_col_not_Close.
    rewrite Hclose. simpl. eauto.
Qed.

Lemma generate_signals_needs_ema_witness :
  ∃ self,
    EMASignal.init (bars scenario_close) 2 = Ok self ∧
    (("EMA_" +:+ pretty 2%Z) ∉ columns (bars scenario_close)) ∧
    EMASignal.generate_signals self = Raise RuntimeError.
Proof.
  assert (EMASignal.init (bars scenario_close) 2
          = Ok (EMASignal.mk (bars scenario_close) 2)) as H
    by (vm_compute; reflexivity).
  assert (("EMA_" +:+ pretty 2%Z) ∉ columns (bars scenario_close)) as Hno.
  { apply (bool_decide_unpack _). vm_compute. exact I. }
  exists (EMASignal.mk (bars scenario_close) 2).
  split; [exact H|]. split; [exact Hno|].
  exact (proj1 (generate_signals_needs_ema _ _ _ H) Hno).
Defined.

Lemma process_ema_signals_inv data P out :
  process_ema_signals data P = Ok out →
  ∃ close ema,
    floats data !! "Close" = Some close ∧
    EMASignal.required_cols ⊆ columns data ∧
    pd.ewm_mean P close = Ok ema ∧
    out = set_label ("Signal_" +:+ pretty P +:+ "EMA") (crossings close ema)
            (set_float ("EMA_" +:+ pretty P) ema data).
Proof.
  intros Hrun.
  destruct (process_ema_signals_Close _ _ _ Hrun) as [close Hclose].
  rewrite (process_ema_signals_unfold _ _ _ Hclose) in Hrun.
  case_bool_decide; [|done].
  destruct (pd.ewm_mean P close) as [ema|] eqn:Hema; simpl in Hrun; [|done].
  injection Hrun as <-. by exists close, ema.
Qed.

Lemma set_columns name name' ema sig data :
  name' ≠ name →
  columns (set_label name' sig (set_float name ema data))
  = columns data ∪ {[ name; name' ]}.
Proof.
  intros Hne. unfold columns. simpl.
  repeat (rewrite dom_delete_L || rewrite dom_insert_L).
  apply set_eq. intros x.
  repeat (rewrite elem_of_union || rewrite elem_of_difference
          || rewrite elem_of_singleton).
  destruct (decide (x = name)) as [Hx|Hx];
    destruct (decide (x = name')) as [Hx'|Hx'];
    intuition congruence.
Qed.

(** X3: the signal stage only adds its two columns.  Every other column of
    the input is found unchanged in the output, and the output has exactly
    the columns of the input plus 'EMA_{P}' and 'Signal_{P}EMA'. *)
Theorem signal_stage_frame data P out :
  process_ema_signals data P = Ok out →
  (∀ name, name ≠ "EMA_" +:+ pretty P →
           name ≠ "Signal_" +:+ pretty P +:+ "EMA" →
           floats out !! name = floats data !! name ∧
           labels out !! name = labels data !! name) ∧
  columns out =
    columns data ∪ {[ "EMA_" +:+ pretty P; "Signal_" +:+ pretty P +:+ "EMA" ]}.
Proof.
  intros (close & ema & _ & _ & _ & ->)%process_ema_signals_inv. split.
  - intros name Hne1 Hne2. simpl.
    by repeat first [rewrite lookup_delete_ne by (by apply not_eq_sym)
                    |rewrite lookup_insert_ne by (by apply not_eq_sym)].
  - apply set_columns, sig_col_not_ema_col.
Qed.

Lemma signal_stage_frame_witness :
  process_ema_signals (bars scenario_close) 2
    = Ok (signals_of scenario_close 2) ∧
  floats (signals_of scenario_close 2) !! "High" = Some scenario_close.
Proof.
  assert (process_ema_signals (bars scenario_close) 2
          = Ok (signals_of scenario_close 2)) as H
    by (vm_compute; reflexivity).
  split; [exact H|].
  rewrite (proj1 (proj1 (signal_stage_frame _ _ _ H) "High"
                    ltac:(discriminate) ltac:(discriminate))).
  vm_compute. reflexivity.
Defined.

(** X4: running the signal stage again on its own output, with the same
    period, changes nothing. *)
Theorem signal_stage_idempotent data P out :
  process_ema_signals data P = Ok out →
  process_ema_signals out P = Ok out.
Proof.
  intros (close & ema & Hclose & Hcols & Hema & ->)%process_ema_signals_inv.
  set (out := set_label _ _ _).
  assert (floats out !! "Close" = Some close) as Hclose'.
  { unfold out. simpl.
    rewrite lookup_delete_ne by apply sig_col_not_Close.
    by rewrite lookup_insert_ne by apply ema_col_not_Close. }
  rewrite (process_ema_signals_unfold _ _ _ Hclose').
  rewrite bool_decide_true.
  2:{ unfold out. rewrite set_columns by apply sig_col_not_ema_col.
      etrans; [exact Hcols|apply union_subseteq_l]. }
  rewrite Hema. simpl. f_equal. unfold out, set_label, set_float. simpl.
  f_equal.
  - apply map_eq. intros name.
    destruct (decide (name = "Signal_" +:+ pretty P +:+ "EMA")) as [->|].
    { by rewrite !lookup_delete_eq. }
    rewrite !lookup_delete_ne by by apply not_eq_sym.
    destruct (decide (name = "EMA_" +:+ pretty P)) as [->|].
    { by rewrite !lookup_insert_eq. }
    by repeat first [rewrite lookup_delete_ne by (by apply not_eq_sym)
                    |rewrite lookup_insert_ne by (by apply not_eq_sym)].
  - apply map_eq. intros name.
    destruct (decide (name = "Signal_" +:+ pretty P +:+ "EMA")) as [->|].
    { by rewrite !lookup_insert_eq. }
    rewrite !lookup_insert_ne by by apply not_eq_sym.
    destruct (decide (name = "EMA_" +:+ pretty P)) as [->|].
    { by rewrite !lookup_delete_eq. }
    by repeat first [rewrite lookup_delete_ne by (by apply not_eq_sym)
                    |rewrite lookup_insert_ne by (by apply not_eq_sym)].
Qed.

Lemma signal_stage_idempotent_witness :
  process_ema_signals (bars scenario_close) 2
    = Ok (signals_of scenario_close 2) ∧
  process_ema_signals (signals_of scenario_close 2) 2
    = Ok (signals_of scenario_close 2).
Proof.
  assert (process_ema_signals (bars scenario_close) 2
          = Ok (signals_of scenario_close 2)) as H
    by (vm_compute; reflexivity).
  split; [exact H|]. exact (signal_stage_idempotent _ _ _ H).
Defined.

Section smoother_facts.
Local Open Scope Qc_scope.

Lemma this_plus (x y : Qc) : (this (x + y) == this x + this y)%Q.
Proof.
  change (this (x + y)) with (Qred (this x + this y)). apply Qred_correct.
Qed.

Lemma this_minus (x y : Qc) : (this (x - y) == this x - this y)%Q.
Proof.
  change (this (x - y)) with (Qred (this x + Qred (- this y))).
  rewrite !Qred_correct. reflexivity.
Qed.

Lemma alpha_range P : (1 ≤ P)%Z → 0 < pd.alpha P ∧ pd.alpha P ≤ 1.
Proof.
  intros HP. unfold pd.alpha.
  assert (2 <= inject_Z (P + 1))%Q as Hden.
  { change 2%Q with (inject_Z 2). rewrite <-Zle_Qle. lia. }
  split.
  - change (this 0 < this (num 2 / num (P + 1)))%Q.
    rewrite this_div, !this_num. change (this 0) with 0%Q.
    apply Qlt_shift_div_l; [lra|]. change (inject_Z 2) with 2%Q. lra.
  - change (this (num 2 / num (P + 1)) <= this 1)%Q.
    rewrite this_div, !this_num. change (this 1) with 1%Q.
    apply Qle_shift_div_r; [lra|]. change (inject_Z 2) with 2%Q. lra.
Qed.

Lemma convex_step a lo hi y x :
  0 < a → a ≤ 1 → lo ≤ y ≤ hi → lo ≤ x ≤ hi →
  lo ≤ (1 - a) * y + a * x ≤ hi.
Proof.
  intros Ha0 Ha1 [Hy1 Hy2] [Hx1 Hx2].
  change (this 0 < this a)%Q in Ha0. change (this a <= this 1)%Q in Ha1.
  change (this lo <= this y)%Q in Hy1. change (this y <= this hi)%Q in Hy2.
  change (this lo <= this x)%Q in Hx1. change (this x <= this hi)%Q in Hx2.
  change (this 0) with 0%Q in Ha0. change (this 1) with 1%Q in Ha1.
  split.
  - change (this lo <= this ((1 - a) * y + a * x))%Q.
    rewrite this_plus, !this_mult, this_minus. change (this 1) with 1%Q. nra.
  - change (this ((1 - a) * y + a * x) <= this hi)%Q.
    rewrite this_plus, !this_mult, this_minus. change (this 1) with 1%Q. nra.
Qed.

Lemma ewm_go_range a lo hi xs : ∀ y,
  0 < a → a ≤ 1 → lo ≤ y ≤ hi →
  Forall (λ x, lo ≤ x ≤ hi) xs →
  Forall (λ t, lo ≤ t ≤ hi) (pd.ewm_go a y xs).
Proof.
  induction xs as [|x xs IH]; intros y Ha0 Ha1 Hy Hxs; simpl; [done|].
  apply Forall_cons in Hxs as [Hx Hxs].
  pose proof (convex_step a lo hi y x Ha0 Ha1 Hy Hx).
  constructor; [done|]. by apply IH.
Qed.

Lemma ewm_go_const a c n : pd.ewm_go a c (replicate n c) = replicate n c.
Proof.
  induction n as [|n IH]; simpl; [done|].
  replace ((1 - a) * c + a * c) with c by ring. by rewrite IH.
Qed.

Lemma alpha_1 : pd.alpha 1 = 1.
Proof. apply Qc_is_canon. reflexivity. Qed.

Lemma ewm_go_alpha_1 xs : ∀ y, pd.ewm_go 1 y xs = xs.
Proof.
  induction xs as [|x xs IH]; intros y; simpl; [done|].
  replace ((1 - 1) * y + 1 * x) with x by ring. by rewrite IH.
Qed.

Lemma crossings_diag xs : crossings xs xs = replicate (length xs) None.
Proof.
  apply list_eq. intros i.
  destruct (decide (i < length xs)%nat) as [Hi|Hi].
  - rewrite lookup_replicate_2 by done.
    destruct i as [|i].
    + apply crossings_0; [|done]. intros ->. simpl in Hi. lia.
    + destruct (lookup_lt_is_Some_2 xs (S i) Hi) as [c Hc].
      destruct (lookup_lt_is_Some_2 xs i ltac:(lia)) as [pc Hpc].
      rewrite (crossings_S _ _ _ _ _ _ _ Hc Hc Hpc Hpc).
      rewrite (bool_decide_false (c < c)) by apply Qclt_irrefl. done.
  - rewrite !lookup_ge_None_2; [done| |].
    + rewrite length_replicate. lia.
    + rewrite crossings_length by done. lia.
Qed.

End smoother_facts.

(** X5: a crossover event is never repeated on the next bar: after a long
    event the next bar cannot carry a long event, and likewise for short. *)
Theorem crossover_not_repeated data P out ev :
  process_ema_signals data P = Ok out →
  labels out !! ("Signal_" +:+ pretty P +:+ "EMA") = Some ev →
  ∀ i d, ev !! i = Some (Some d) → ev !! S i ≠ Some (Some d).
Proof.
  intros (close & ema & _ & _ & Hema & ->)%process_ema_signals_inv.
  simpl. rewrite lookup_insert_eq. intros [= <-] i d Hi Hnext.
  destruct (ewm_mean_smoothed _ _ _ Hema) as (Hlen & _ & _).
  pose proof (lookup_lt_Some _ _ _ Hnext) as Hlt.
  rewrite crossings_length in Hlt by done.
  destruct i as [|i].
  { rewrite crossings_0 in Hi; [done| |done]. intros ->. simpl in Hlt. lia. }
  destruct (lookup_lt_is_Some_2 close (S (S i)) Hlt) as [c2 Hc2].
  destruct (lookup_lt_is_Some_2 ema (S (S i)) ltac:(lia)) as [t2 Ht2].
  destruct (lookup_lt_is_Some_2 close (S i) ltac:(lia)) as [c1 Hc1].
  destruct (lookup_lt_is_Some_2 ema (S i) ltac:(lia)) as [t1 Ht1].
  destruct (lookup_lt_is_Some_2 close i ltac:(lia)) as [c0 Hc0].
  destruct (lookup_lt_is_Some_2 ema i ltac:(lia)) as [t0 Ht0].
  rewrite (crossings_S _ _ _ _ _ _ _ Hc1 Ht1 Hc0 Ht0) in Hi.
  rewrite (crossings_S _ _ _ _ _ _ _ Hc2 Ht2 Hc1 Ht1) in Hnext.
  repeat case_bool_decide; simpl in *; simplify_eq.
  all: match goal with
       | H1 : (?x < ?y)%Qc, H2 : (?y < ?x)%Qc |- _ =>
           exact (Qclt_asym _ _ H1 H2)
       | H1 : (?x < ?y)%Qc, H2 : (?y <= ?x)%Qc |- _ =>
           exact (Qclt_not_le _ _ H1 H2)
       end.
Qed.

Lemma crossover_not_repeated_witness :
  ∃ ev,
    process_ema_signals (bars scenario_close) 2
      = Ok (signals_of scenario_close 2) ∧
    labels (signals_of scenario_close 2) !! "Signal_2EMA" = Some ev ∧
    ev !! 1 = Some (Some long) ∧
    ev !! 2 ≠ Some (Some long).
Proof.
  assert (process_ema_signals (bars scenario_close) 2
          = Ok (signals_of scenario_close 2)) as H
    by (vm_compute; reflexivity).
  eexists. split; [exact H|].
  assert (∀ A B C : Prop, A → B → (A → B → C) → A ∧ B ∧ C) as Hand by tauto.
  apply Hand; [vm_compute; reflexivity|vm_compute; reflexivity|].
  intros Hl H1. exact (crossover_not_repeated _ _ _ _ H Hl 1 long H1).
Defined.

(** X6: on a series that never moves the trend value equals the price on
    every bar and no crossover event is produced. *)
Theorem constant_series_is_silent data P c n :
  (1 ≤ P)%Z →
  EMASignal.required_cols ⊆ columns data →
  floats data !! "Close" = Some (replicate n c) →
  ∃ out, process_ema_signals data P = Ok out ∧
         floats out !! ("EMA_" +:+ pretty P) = Some (replicate n c) ∧
         labels out !! ("Signal_" +:+ pretty P +:+ "EMA")
           = Some (replicate n None).
Proof.
  intros HP Hcols Hclose.
  rewrite (process_ema_signals_unfold _ _ _ Hclose).
  rewrite bool_decide_true by done. rewrite ewm_mean_from_1 by done. simpl.
  assert (match replicate n c with
          | [] => []
          | x :: xs' => x :: pd.ewm_go (pd.alpha P) x xs'
          end = replicate n c) as ->.
  { destruct n as [|n]; simpl; [done|]. by rewrite ewm_go_const. }
  eexists. split; [done|]. simpl.
  rewrite lookup_delete_ne by apply sig_col_not_ema_col.
  rewrite !lookup_insert_eq. split; [done|].
  by rewrite crossings_diag, length_replicate.
Qed.

Lemma constant_series_is_silent_witness :
  (1 ≤ 89)%Z ∧
  EMASignal.required_cols ⊆ columns (bars (replicate 5 (num 7))) ∧
  floats (bars (replicate 5 (num 7))) !! "Close" = Some (replicate 5 (num 7)) ∧
  ∃ out, process_ema_signals (bars (replicate 5 (num 7))) 89 = Ok out ∧
         floats out !! ("EMA_" +:+ pretty 89%Z) = Some (replicate 5 (num 7)) ∧
         labels out !! ("Signal_" +:+ pretty 89%Z +:+ "EMA")
           = Some (replicate 5 None).
Proof.
  assert (1 ≤ 89)%Z as H1 by lia.
  assert (EMASignal.required_cols ⊆ columns (bars (replicate 5 (num 7)))) as H2.
  { apply (bool_decide_unpack _). vm_compute. exact I. }
  assert (floats (bars (replicate 5 (num 7))) !! "Close"
          = Some (replicate 5 (num 7))) as H3 by (vm_compute; reflexivity).
  split; [exact H1|]. split; [exact H2|]. split; [exact H3|].
  exact (constant_series_is_silent _ 89 (num 7) 5 H1 H2 H3).
Defined.

(** X7: the trend value never leaves the range of the prices: bounds that
    hold for every Close hold for every trend value. *)
Theorem trend_within_price_range data P out close trend lo hi :
  process_ema_signals data P = Ok out →
  floats data !! "Close" = Some close →
  floats out !! ("EMA_" +:+ pretty P) = Some trend →
  Forall (λ x, lo ≤ x ≤ hi)%Qc close →
  Forall (λ t, lo ≤ t ≤ hi)%Qc trend.
Proof.
  intros (close' & ema & Hclose' & _ & Hema & ->)%process_ema_signals_inv
    Hclose.
  rewrite Hclose in Hclose'. injection Hclose' as <-.
  simpl. rewrite lookup_delete_ne by apply sig_col_not_ema_col.
  rewrite lookup_insert_eq. intros [= <-] Hrange.
  apply ewm_mean_Ok in Hema as [HP ->].
  destruct close as [|x xs]; [done|].
  apply Forall_cons in Hrange as [Hx Hxs].
  destruct (alpha_range P HP) as [Ha0 Ha1].
  constructor; [done|]. by apply ewm_go_range.
Qed.

Lemma trend_within_price_range_witness :
  ∃ trend,
    process_ema_signals (bars scenario_close) 2
      = Ok (signals_of scenario_close 2) ∧
    floats (bars scenario_close) !! "Close" = Some scenario_close ∧
    floats (signals_of scenario_close 2) !! ("EMA_" +:+ pretty 2%Z)
      = Some trend ∧
    Forall (λ x, num 9 ≤ x ≤ num 12)%Qc scenario_close ∧
    Forall (λ t, num 9 ≤ t ≤ num 12)%Qc trend.
Proof.
  assert (process_ema_signals (bars scenario_close) 2
          = Ok (signals_of scenario_close 2)) as H
    by (vm_compute; reflexivity).
  assert (floats (bars scenario_close) !! "Close" = Some scenario_close) as Hc
    by (vm_compute; reflexivity).
  assert (Forall (λ x, num 9 ≤ x ≤ num 12)%Qc scenario_close) as Hr.
  { repeat constructor; by intros [=]. }
  eexists. split; [exact H|]. split; [exact Hc|].
  assert (∀ A B C : Prop, A → B → (A → C) → A ∧ B ∧ C) as Hand by tauto.
  apply Hand; [vm_compute; reflexivity|exact Hr|].
  intros Ht. exact (trend_within_price_range _ _ _ _ _ _ _ H Hc Ht Hr).
Defined.

(** X8: with period 1 the smoothing factor is 1: the trend column is the
    Close column itself and no crossover event is ever produced. *)
Theorem period_one_follows_close data close :
  EMASignal.required_cols ⊆ columns data →
  floats data !! "Close" = Some close →
  ∃ out, process_ema_signals data 1 = Ok out ∧
         floats out !! "EMA_1" = Some close ∧
         labels out !! "Signal_1EMA" = Some (replicate (length close) None).
Proof.
  intros Hcols Hclose.
  rewrite (process_ema_signals_unfold _ _ _ Hclose).
  rewrite bool_decide_true by done. rewrite ewm_mean_from_1 by done. simpl.
  assert (match close with
          | [] => []
          | x :: xs' => x :: pd.ewm_go (pd.alpha 1) x xs'
          end = close) as ->.
  { destruct close as [|x xs]; [done|]. by rewrite alpha_1, ewm_go_alpha_1. }
  assert ("EMA_" +:+ pretty 1%Z = "EMA_1") as -> by (vm_compute; reflexivity).
  assert ("Signal_" +:+ pretty 1%Z +:+ "EMA" = "Signal_1EMA") as ->
    by (vm_compute; reflexivity).
  eexists. split; [done|]. simpl.
  rewrite lookup_delete_ne by discriminate.
  rewrite !lookup_insert_eq. by rewrite crossings_diag.
Qed.

Lemma period_one_follows_close_witness :
  EMASignal.required_cols ⊆ columns (bars scenario_close) ∧
  floats (bars scenario_close) !! "Close" = Some scenario_close ∧
  ∃ out, process_ema_signals (bars scenario_close) 1 = Ok out ∧
         floats out !! "EMA_1" = Some scenario_close ∧
         labels out !! "Signal_1EMA"
           = Some (replicate (length scenario_close) None).
Proof.
  assert (EMASignal.required_cols ⊆ columns (bars scenario_close)) as H2.
  { apply (bool_decide_unpack _). vm_compute. exact I. }
  assert (floats (bars scenario_close) !! "Close" = Some scenario_close) as H3
    by (vm_compute; reflexivity).
  split; [exact H2|]. split; [exact H3|].
  exact (period_one_follows_close _ _ H2 H3).
Defined.

(** ** More on the simulator *)

Ltac step_of T st H :=
  let r := fresh "r" in
  let r0 := fresh "r0" in
  let Hs := fresh "Hs" in
  let U1 := fresh "U" in
  let U2 := fresh "U" in
  let U3 := fresh "U" in
  let U4 := fresh "U" in
  let U5 := fresh "U" in
  destruct (df_step T _ _ H) as (r & r0 & ? & (U1 & U2 & U3 & U4 & U5) & Hs & ->);
  inversion Hs; subst;
  repeat match goal with
         | E : _ = st (S _) |- _ => rewrite <-E in *; clear E
         end;
  simpl in *; rewrite ?U1, ?U2, ?U3, ?U4, ?U5; simpl.

Lemma row_inputs pip_size rows df st i r' :
  Trace pip_size rows df st → df !! i = Some r' →
  ∃ r, rows !! i = Some r ∧ Close r' = Close r ∧ raw_sig r' = raw_sig r ∧
       MACD r' = MACD r ∧ MACD_signal r' = MACD_signal r ∧
       MACD_hist r' = MACD_hist r.
Proof. intros T Hr'. step_of T st Hr'; eauto 10. Qed.

Lemma entry_is_raw pip_size rows df st i r' :
  Trace pip_size rows df st → df !! i = Some r' →
  is_Some (entry_signal r') → entry_signal r' = raw_sig r'.
Proof.
  intros T Hr' [d Hd]. step_of T st Hr'; try congruence.
Qed.

Lemma exit_fields pip_size rows df st i r' :
  Trace pip_size rows df st → df !! i = Some r' →
  (is_Some (exit_signal r') ↔ is_Some (exit_type r')) ∧
  (is_Some (exit_signal r') ↔ is_Some (profit r')).
Proof.
  intros T Hr'. step_of T st Hr'; split; split; intros [? ?]; eauto; done.
Qed.

Lemma exit_tag pip_size rows df st x r' :
  Trace pip_size rows df st → df !! x = Some r' →
  is_Some (exit_signal r') →
  exit_signal r' = Some ("exit_" +:+ fmt_position (position (st x))).
Proof.
  intros T Hr' [d Hd]. step_of T st Hr'; try congruence; done.
Qed.

Lemma macd_exit_fired pip_size rows df st x r' :
  Trace pip_size rows df st → df !! x = Some r' →
  exit_type r' = Some macd →
  MACDStrategy.macd_exit (position (st x)) (MACD_hist r') = Ok true.
Proof.
  intros T Hr' Hx. step_of T st Hr'; try congruence; done.
Qed.

Lemma run_strategy_inv data fast slow signal pip_size df :
  run_strategy data fast slow signal pip_size = Ok df →
  ∃ s0 s1,
    MACDStrategy.init data fast slow signal pip_size = Ok s0 ∧
    MACDStrategy.calculate_macd s0 = Ok s1 ∧
    Trace pip_size (MACDStrategy.df s1) df
      (state_at pip_size (MACDStrategy.df s1)).
Proof.
  unfold run_strategy.
  destruct (MACDStrategy.init _ _ _ _ _) as [s0|] eqn:H0; simpl; [|done].
  destruct (MACDStrategy.calculate_macd s0) as [s1|] eqn:H1; simpl; [|done].
  rewrite simulate_trades_scan.
  destruct (scan_rows _ _ _) as [[sc out]|] eqn:H2; simpl; [|done].
  intros [= <-].
  destruct (init_untouched _ _ _ _ _ _ H0) as (Hun0 & Hpip & _).
  destruct (calculate_macd_untouched _ _ H1 Hun0) as (Hun1 & Hpip1).
  exists s0, s1. split; [done|]. split; [done|].
  rewrite <-Hpip, <-Hpip1.
  eapply scan_trace; [done|].
  intros i r Hr. by eapply (Forall_lookup_1 _ _ _ _ Hun1).
Qed.

Lemma calculate_macd_periods s s' :
  MACDStrategy.calculate_macd s = Ok s' →
  (1 ≤ MACDStrategy.fast s)%Z ∧ (1 ≤ MACDStrategy.slow s)%Z ∧
  (1 ≤ MACDStrategy.signal s)%Z.
Proof.
  unfold MACDStrategy.calculate_macd.
  destruct (pd.ewm_mean (MACDStrategy.fast s) _) as [fe|] eqn:Hfe;
    simpl; [|done].
  destruct (pd.ewm_mean (MACDStrategy.slow s) _) as [se|] eqn:Hse;
    simpl; [|done].
  destruct (pd.ewm_mean (MACDStrategy.signal s) _) as [sl|] eqn:Hsl;
    simpl; [|done].
  intros _.
  apply ewm_mean_Ok in Hfe as [? _]. apply ewm_mean_Ok in Hse as [? _].
  by apply ewm_mean_Ok in Hsl as [? _].
Qed.

(** X9: the oscillator columns written by [calculate_macd].  On every row
    the histogram is the MACD value minus the signal line, and on the first
    row all three are 0, because each smoother starts at its first input. *)
Theorem macd_columns s s' :
  MACDStrategy.calculate_macd s = Ok s' →
  ∀ i r, MACDStrategy.df s' !! i = Some r →
    ∃ m g, MACD r = Some m ∧ MACD_signal r = Some g ∧
           MACD_hist r = Some (m - g)%Qc ∧
           (i = 0 → m = 0%Qc ∧ g = 0%Qc ∧ (m - g)%Qc = 0%Qc).
Proof.
  intros Hcalc i r Hr.
  destruct (calculate_macd_periods _ _ Hcalc) as (Hf & Hs & Hg).
  destruct (calculate_macd_columns s Hf Hs Hg)
    as (s'' & fe & se & sl & Hcalc' & Sfe & Sse & Ssl & _ & _ & Hm & Hsg & Hh).
  rewrite Hcalc in Hcalc'. injection Hcalc' as <-.
  pose proof (f_equal (.!! i) Hm) as Hm'.
  pose proof (f_equal (.!! i) Hsg) as Hsg'.
  pose proof (f_equal (.!! i) Hh) as Hh'.
  rewrite !list_lookup_fmap, Hr in Hm', Hsg', Hh'. simpl in *.
  rewrite lookup_zip_with in Hh'.
  destruct (zip_with Qcminus fe se !! i) as [m|] eqn:Hmi; [|done].
  destruct (sl !! i) as [g|] eqn:Hgi; [|done].
  simpl in *. exists m, g.
  split; [congruence|]. split; [congruence|]. split; [congruence|].
  intros ->.
  destruct Sfe as (_ & Hf0 & _), Sse as (_ & Hs0 & _), Ssl as (_ & Hg0 & _).
  rewrite Hmi in Hg0. rewrite Hgi in Hg0. injection Hg0 as ->.
  rewrite lookup_zip_with, Hf0, Hs0 in Hmi.
  destruct ((Close <$> MACDStrategy.df s) !! 0) as [c|]; [|done].
  simpl in Hmi. injection Hmi as <-.
  split_and!; ring.
Qed.

Lemma macd_columns_witness :
  ∃ s' r,
    MACDStrategy.calculate_macd
      (MACDStrategy.mk
         (zip_with MACDStrategy.fresh_row scenario_close
            [None; Some long; Some short; None]) 55 89 8 (num 1)) = Ok s' ∧
    MACDStrategy.df s' !! 0 = Some r ∧
    ∃ m g, MACD r = Some m ∧ MACD_signal r = Some g ∧
           MACD_hist r = Some (m - g)%Qc ∧
           (0 = 0 → m = 0%Qc ∧ g = 0%Qc ∧ (m - g)%Qc = 0%Qc).
Proof.
  eexists _, _.
  assert (∀ A B C : Prop, A → B → (A → B → C) → A ∧ B ∧ C) as Hand by tauto.
  apply Hand; [vm_compute; reflexivity|vm_compute; reflexivity|].
  intros Hc Hr. exact (macd_columns _ _ Hc 0 _ Hr).
Defined.

Lemma smoothed_unique P xs ys ys' :
  smoothed P xs ys → smoothed P xs ys' → ys = ys'.
Proof.
  intros (Hlen & H0 & HS) (Hlen' & H0' & HS'). apply list_eq. intros i.
  induction i as [|i IH]; [congruence|].
  destruct (xs !! S i) as [x|] eqn:Hx.
  - assert (is_Some (ys !! i)) as [y Hy].
    { apply lookup_lt_is_Some. apply lookup_lt_Some in Hx. lia. }
    rewrite (HS i x y Hx Hy). rewrite Hy in IH. symmetry. eauto.
  - apply lookup_ge_None in Hx.
    rewrite !lookup_ge_None_2; [done|lia|lia].
Qed.

Lemma smoothed_zero P n ys :
  smoothed P (replicate n 0%Qc) ys → ys = replicate n 0%Qc.
Proof.
  intros Hs. apply (smoothed_unique P (replicate n 0%Qc)); [done|].
  split; [done|]. split; [done|].
  intros i x y [-> Hi]%lookup_replicate [-> _]%lookup_replicate.
  rewrite lookup_replicate_2 by done. f_equal; ring.
Qed.

Lemma zip_with_minus_diag (xs : list Qc) :
  zip_with Qcminus xs xs = replicate (length xs) 0%Qc.
Proof.
  induction xs as [|x xs IH]; simpl; [done|]. rewrite IH. f_equal. ring.
Qed.

(** X10: with equal fast and slow periods the oscillator is identically 0,
    so the histogram is 0 on every row and no trade is ever closed with
    exit type [macd]. *)
Theorem equal_periods_disable_macd_exit data p signal pip_size df :
  run_strategy data p p signal pip_size = Ok df →
  ∀ i r, df !! i = Some r →
    MACD_hist r = Some 0%Qc ∧ exit_type r ≠ Some macd.
Proof.
  intros (s0 & s1 & Hinit & Hcalc & T)%run_strategy_inv i r Hr.
  destruct (init_untouched _ _ _ _ _ _ Hinit) as (_ & _ & Hf & Hs & _).
  destruct (calculate_macd_periods _ _ Hcalc) as (Hf1 & Hs1 & Hg1).
  destruct (calculate_macd_columns s0 Hf1 Hs1 Hg1)
    as (s' & fe & se & sl & Hcalc' & Sfe & Sse & Ssl & _ & _ & _ & _ & Hh).
  rewrite Hcalc in Hcalc'. injection Hcalc' as <-.
  rewrite Hf in Sfe. rewrite Hs in Sse.
  pose proof (smoothed_unique _ _ _ _ Sfe Sse) as <-.
  rewrite zip_with_minus_diag in Ssl, Hh.
  apply smoothed_zero in Ssl as ->.
  rewrite zip_with_minus_diag, length_replicate in Hh.
  destruct (row_inputs _ _ _ _ _ _ T Hr) as (r0 & Hr0 & _ & _ & _ & _ & Hhist).
  pose proof (f_equal (.!! i) Hh) as Hh'.
  rewrite !list_lookup_fmap, Hr0 in Hh'. simpl in Hh'.
  assert (MACD_hist r = Some 0%Qc) as H0.
  { rewrite Hhist. destruct (replicate (length fe) 0%Qc !! i) as [z|] eqn:Hz;
      [|done].
    apply lookup_replicate in Hz as [-> _]. by injection Hh'. }
  split; [done|]. intros Hx.
  pose proof (macd_exit_fired _ _ _ _ _ _ T Hr Hx) as Hm.
  rewrite H0 in Hm. unfold MACDStrategy.macd_exit in Hm.
  destruct (position _) as [[|]|]; simplify_eq;
    match goal with
    | H : bool_decide _ = true |- _ =>
        apply bool_decide_eq_true_1 in H; by apply Qclt_irrefl in H
    end.
Qed.

Lemma equal_periods_disable_macd_exit_witness :
  run_strategy demo_signals 2 2 8 (num 1)
    = Ok (rows_of demo_signals 2 2 8 (num 1)) ∧
  ∀ i r, rows_of demo_signals 2 2 8 (num 1) !! i = Some r →
    MACD_hist r = Some 0%Qc ∧ exit_type r ≠ Some macd.
Proof.
  assert (run_strategy demo_signals 2 2 8 (num 1)
          = Ok (rows_of demo_signals 2 2 8 (num 1))) as H
    by (vm_compute; reflexivity).
  split; [exact H|]. exact (equal_periods_disable_macd_exit _ _ _ _ _ H).
Defined.

(** X11: the outcome of the strategy on a frame with a numeric Close
    column.  The run completes exactly when the frame has the column
    'Signal_{slow}EMA' and the three periods are at least 1; in every other
    case it raises a ValueError. *)
Theorem strategy_outcome data fast slow signal pip_size close :
  floats data !! "Close" = Some close →
  (MACDStrategy.raw_sig_name slow ∈ columns data ∧
   (1 ≤ fast)%Z ∧ (1 ≤ slow)%Z ∧ (1 ≤ signal)%Z →
     ∃ df, run_strategy data fast slow signal pip_size = Ok df) ∧
  (¬ (MACDStrategy.raw_sig_name slow ∈ columns data ∧
      (1 ≤ fast)%Z ∧ (1 ≤ slow)%Z ∧ (1 ≤ signal)%Z) →
     run_strategy data fast slow signal pip_size = Raise ValueError).
Proof.
  intros Hclose. split.
  - intros (Hraw & Hf & Hs & Hg). by eapply run_strategy_total.
  - intros Hnot. unfold run_strategy, MACDStrategy.init.
    case_bool_decide as Hcols; [|done]. destruct Hcols as [_ Hraw].
    unfold get_float. rewrite Hclose. simpl.
    destruct (MACDStrategy.raw_column _ _) as [raw|] eqn:Hrc; simpl.
    2:{ unfold MACDStrategy.raw_column in Hrc.
        apply elem_of_union in Hraw as [[v Hv]%elem_of_dom|[v Hv]%elem_of_dom];
          rewrite Hv in Hrc; by repeat case_match. }
    unfold MACDStrategy.calculate_macd, pd.ewm_mean. simpl.
    destruct (decide (1 ≤ fast)%Z);
      [rewrite (bool_decide_false (fast < 1)%Z) by lia
      |by rewrite (bool_decide_true (fast < 1)%Z) by lia].
    simpl.
    destruct (decide (1 ≤ slow)%Z);
      [rewrite (bool_decide_false (slow < 1)%Z) by lia
      |by rewrite (bool_decide_true (slow < 1)%Z) by lia].
    simpl.
    destruct (decide (1 ≤ signal)%Z);
      [|by rewrite (bool_decide_true (signal < 1)%Z) by lia].
    destruct Hnot. by split_and!.
Qed.

Lemma strategy_outcome_witness :
  floats demo_signals !! "Close" = Some demo_close ∧
  (MACDStrategy.raw_sig_name 2 ∈ columns demo_signals ∧
   (1 ≤ 55)%Z ∧ (1 ≤ 2)%Z ∧ (1 ≤ 8)%Z) ∧
  ∃ df, run_strategy demo_signals 55 2 8 (num 1) = Ok df.
Proof.
  assert (floats demo_signals !! "Close" = Some demo_close) as H
    by (vm_compute; reflexivity).
  assert (MACDStrategy.raw_sig_name 2 ∈ columns demo_signals ∧
          (1 ≤ 55)%Z ∧ (1 ≤ 2)%Z ∧ (1 ≤ 8)%Z) as H2.
  { split; [|lia]. apply (bool_decide_unpack _). vm_compute. exact I. }
  split; [exact H|]. split; [exact H2|].
  exact (proj1 (strategy_outcome _ 55 2 8 (num 1) _ H) H2).
Defined.

Lemma trace_columns pip_size rows df st :
  Trace pip_size rows df st →
  Close <$> df = Close <$> rows ∧ raw_sig <$> df = raw_sig <$> rows ∧
  MACD <$> df = MACD <$> rows ∧ MACD_signal <$> df = MACD_signal <$> rows ∧
  MACD_hist <$> df = MACD_hist <$> rows.
Proof.
  intros T.
  assert (∀ {V} (f : Row → V),
            (∀ i r' r, df !! i = Some r' → rows !! i = Some r →
                       (∃ r0, rows !! i = Some r0 ∧ f r' = f r0)) →
            f <$> df = f <$> rows) as Hcol.
  { intros V f Hf. apply list_eq. intros i. rewrite !list_lookup_fmap.
    destruct (df !! i) as [r'|] eqn:Hr'.
    - destruct (df_step T _ _ Hr') as (r & _ & Hr & _).
      destruct (Hf i r' r Hr' Hr) as (r0 & Hr0 & Heq).
      rewrite Hr0. simpl. by rewrite Heq.
    - apply lookup_ge_None in Hr'. rewrite (trace_length _ _ _ _ T) in Hr'.
      by rewrite lookup_ge_None_2. }
  split_and!; apply Hcol; intros i r' r Hr' Hr;
    destruct (row_inputs _ _ _ _ _ _ T Hr') as (r0 & ? & ? & ? & ? & ? & ?);
    eauto.
Qed.

Lemma fresh_rows_columns close raw :
  length raw = length close →
  Close <$> zip_with MACDStrategy.fresh_row close raw = close ∧
  raw_sig <$> zip_with MACDStrategy.fresh_row close raw = raw.
Proof.
  revert raw. induction close as [|c close IH]; intros [|v raw]; simpl;
    try done.
  intros [= Hlen]. destruct (IH raw Hlen) as [IH1 IH2].
  split; f_equal; done.
Qed.

Lemma init_rows data fast slow signal pip_size s close :
  MACDStrategy.init data fast slow signal pip_size = Ok s →
  floats data !! "Close" = Some close →
  ∃ raw, MACDStrategy.raw_column data (MACDStrategy.raw_sig_name slow)
           = Some raw ∧
         MACDStrategy.df s = zip_with MACDStrategy.fresh_row close raw.
Proof.
  unfold MACDStrategy.init, get_float. intros Hinit Hclose.
  case_bool_decide; [|done]. rewrite Hclose in Hinit. simpl in Hinit.
  destruct (MACDStrategy.raw_column _ _) as [raw|]; simpl in Hinit; [|done].
  injection Hinit as <-. eauto.
Qed.

Lemma run_strategy_columns data fast slow signal pip_size df close sig :
  run_strategy data fast slow signal pip_size = Ok df →
  floats data !! "Close" = Some close →
  labels data !! MACDStrategy.raw_sig_name slow = Some sig →
  length sig = length close →
  Close <$> df = close ∧ raw_sig <$> df = sig.
Proof.
  intros (s0 & s1 & Hinit & Hcalc & T)%run_strategy_inv Hclose Hsig Hlen.
  destruct (init_rows _ _ _ _ _ _ _ Hinit Hclose) as (raw & Hraw & Hrows).
  unfold MACDStrategy.raw_column in Hraw. rewrite Hsig in Hraw.
  injection Hraw as <-.
  destruct (fresh_rows_columns close sig Hlen) as [HC HR].
  destruct (calculate_macd_periods _ _ Hcalc) as (Hf & Hs & Hg).
  destruct (calculate_macd_columns s0 Hf Hs Hg)
    as (s' & _ & _ & _ & Hcalc' & _ & _ & _ & HC1 & HR1 & _).
  rewrite Hcalc in Hcalc'. injection Hcalc' as <-.
  destruct (trace_columns _ _ _ _ T) as (HC2 & HR2 & _).
  rewrite HC2, HR2, HC1, HR1, Hrows. done.
Qed.


(** X12: the simulator leaves its inputs alone.  The Close column and the
    raw signal column of the result are those of the input frame, bar for
    bar. *)
Theorem strategy_keeps_inputs data fast slow signal pip_size df close sig :
  run_strategy data fast slow signal pip_size = Ok df →
  floats data !! "Close" = Some close →
  labels data !! MACDStrategy.raw_sig_name slow = Some sig →
  length sig = length close →
  Close <$> df = close ∧ raw_sig <$> df = sig.
Proof. apply run_strategy_columns. Qed.

Lemma strategy_keeps_inputs_witness :
  ∃ sig,
    run_strategy demo_signals 55 2 8 (num 1) = Ok demo_df ∧
    floats demo_signals !! "Close" = Some demo_close ∧
    labels demo_signals !! MACDStrategy.raw_sig_name 2 = Some sig ∧
    length sig = length demo_close ∧
    Close <$> demo_df = demo_close ∧ raw_sig <$> demo_df = sig.
Proof.
  assert (run_strategy demo_signals 55 2 8 (num 1) = Ok demo_df) as H
    by (vm_compute; reflexivity).
  assert (floats demo_signals !! "Close" = Some demo_close) as Hc
    by (vm_compute; reflexivity).
  eexists. split; [exact H|]. split; [exact Hc|].
  assert (∀ A B C : Prop, A → B → (A → B → C) → A ∧ B ∧ C) as Hand by tauto.
  apply Hand; [vm_compute; reflexivity|vm_compute; reflexivity|].
  intros Hs Hl. exact (strategy_keeps_inputs _ _ _ _ _ _ _ _ H Hc Hs Hl).
Defined.

Lemma flat_prefix pip_size rows df st i :
  Trace pip_size rows df st →
  (∀ j r, j < i → df !! j = Some r → raw_sig r = None) →
  i ≤ length rows → in_trade (st i) = false.
Proof.
  intros T. induction i as [|i IH]; intros Hraw Hi.
  - by rewrite (trace_start _ _ _ _ T).
  - destruct (df_lookup T i) as [r Hr]; [lia|].
    assert (in_trade (st i) = false) as Hflat
      by (apply IH; [intros j r' Hj Hr'; apply (Hraw j r'); [lia|done]|lia]).
    destruct (trade_id r) as [k|] eqn:Hk.
    + destruct (id_at T i r k Hr Hk) as (_ & [[_ He]|[Hin _]]); [|congruence].
      rewrite (entry_is_raw _ _ _ _ _ _ T Hr He) in He.
      rewrite (Hraw i r) in He; [by destruct He|lia|done].
    + destruct (no_id_at T i r Hr Hk) as (_ & -> & _). done.
Qed.

Lemma flat_rows pip_size rows df st i r :
  Trace pip_size rows df st →
  (∀ j r', j ≤ i → df !! j = Some r' → raw_sig r' = None) →
  df !! i = Some r →
  trade_id r = None ∧ entry_signal r = None ∧ exit_signal r = None ∧
  profit r = None ∧ in_position r = false.
Proof.
  intros T Hraw Hr.
  pose proof (row_index T i r Hr) as Hn.
  assert (in_trade (st i) = false) as Hflat.
  { apply (flat_prefix _ _ _ _ _ T); [|lia].
    intros j r' Hj. apply Hraw. lia. }
  assert (trade_id r = None) as Hk.
  { destruct (trade_id r) as [k|] eqn:Hk; [|done].
    destruct (id_at T i r k Hr Hk) as (_ & [[_ He]|[Hin _]]); [|congruence].
    rewrite (entry_is_raw _ _ _ _ _ _ T Hr He) in He.
    rewrite (Hraw i r) in He; [by destruct He|lia|done]. }
  destruct (no_id_at T i r Hr Hk) as (_ & _ & He & Hx).
  destruct (in_position_at T i r Hr) as [Hip _].
  destruct (exit_fields _ _ _ _ _ _ T Hr) as [_ Hp].
  split; [done|]. split; [done|]. split; [done|]. split.
  - destruct (profit r) as [p|] eqn:Hpr; [|done].
    rewrite Hx in Hp. destruct (proj2 Hp) as [? [=]]. eauto.
  - rewrite Hip, Hk. done.
Qed.

(** X13: nothing happens before the first raw signal.  A bar up to which
    the raw signal column is empty belongs to no trade: it has no trade id,
    no entry or exit signal, no profit, and is not marked in-position. *)
Theorem flat_until_first_signal data fast slow signal pip_size df i r :
  run_strategy data fast slow signal pip_size = Ok df →
  (∀ j r', j ≤ i → df !! j = Some r' → raw_sig r' = None) →
  df !! i = Some r →
  trade_id r = None ∧ entry_signal r = None ∧ exit_signal r = None ∧
  profit r = None ∧ in_position r = false.
Proof.
  intros [rows T]%run_strategy_trace. apply (flat_rows _ _ _ _ _ _ T).
Qed.

Lemma flat_until_first_signal_witness :
  ∃ r,
    run_strategy demo_signals 55 2 8 (num 1) = Ok demo_df ∧
    (∀ j r', j ≤ 0 → demo_df !! j = Some r' → raw_sig r' = None) ∧
    demo_df !! 0 = Some r ∧
    trade_id r = None ∧ entry_signal r = None ∧ exit_signal r = None ∧
    profit r = None ∧ in_position r = false.
Proof.
  assert (run_strategy demo_signals 55 2 8 (num 1) = Ok demo_df) as H
    by (vm_compute; reflexivity).
  assert (∀ j r', j ≤ 0 → demo_df !! j = Some r' → raw_sig r' = None) as H0.
  { intros j r' Hj. replace j with 0 by lia. vm_compute. by intros [= <-]. }
  eexists. split; [exact H|]. split; [exact H0|].
  assert (∀ A B : Prop, A → (A → B) → A ∧ B) as Hand by tauto.
  apply Hand; [vm_compute; reflexivity|].
  intros Hr. exact (flat_until_first_signal _ _ _ _ _ _ _ _ H H0 Hr).
Defined.

(** X14: the exit cells are written together and name the trade that is
    closed.  A row has an exit signal exactly when it has an exit type and
    exactly when it has a profit; such a row is the exit bar of a trade,
    and its exit signal is 'exit_long' or 'exit_short' after the direction
    of that trade. *)
Theorem exit_cells_go_together data fast slow signal pip_size df :
  run_strategy data fast slow signal pip_size = Ok df →
  ∀ i r, df !! i = Some r →
    (is_Some (exit_signal r) ↔ is_Some (exit_type r)) ∧
    (is_Some (exit_signal r) ↔ is_Some (profit r)) ∧
    (is_Some (exit_signal r) →
       ∃ k t, trade_of df k = Some t ∧ exitIndex t = Some i ∧
              exit_signal r = Some (match direction t with
                                    | long => "exit_long"
                                    | short => "exit_short"
                                    end)).
Proof.
  intros [rows T]%run_strategy_trace i r Hr.
  destruct (exit_fields _ _ _ _ _ _ T Hr) as [H1 H2].
  split; [done|]. split; [done|]. intros Hx.
  destruct (in_position_at T i r Hr) as [_ [k Hk]]; [done|].
  pose proof (conj Hk Hx : exit_row k r) as Hxk.
  destruct (exit_at T i r k Hr Hxk) as (Hin & Htc & _).
  pose proof (row_index T i r Hr) as Hn.
  pose proof (in_trade_counter T i ltac:(lia) Hin) as Hpos.
  destruct (entry_exists T i) as (e & re & _ & He & Hek & _); [lia|done|].
  rewrite Htc in Hek.
  destruct (trade_of_is_Some df k e re He Hek) as [t Ht].
  pose proof Ht as (_ & (re' & He' & Hek' & Hd & _) & Hxt)%trade_of_Some.
  exists k, t. split; [done|].
  destruct (open_state T i k _ re' ltac:(lia) Htc He' Hek') as [Hp _].
  rewrite Hd in Hp.
  rewrite (exit_tag _ _ _ _ _ _ T Hr Hx), Hp. split.
  - destruct (exitIndex t) as [x0|].
    + destruct Hxt as (rx0 & Hrx0 & Hxk0 & _).
      by rewrite (exit_unique T x0 i rx0 r k).
    + by destruct (Hxt i r).
  - by destruct (direction t).
Qed.

Lemma exit_cells_go_together_witness :
  run_strategy demo_signals 55 2 8 (num 1) = Ok demo_df ∧
  ∀ i r, demo_df !! i = Some r →
    (is_Some (exit_signal r) ↔ is_Some (exit_type r)) ∧
    (is_Some (exit_signal r) ↔ is_Some (profit r)) ∧
    (is_Some (exit_signal r) →
       ∃ k t, trade_of demo_df k = Some t ∧ exitIndex t = Some i ∧
              exit_signal r = Some (match direction t with
                                    | long => "exit_long"
                                    | short => "exit_short"
                                    end)).
Proof.
  assert (run_strategy demo_signals 55 2 8 (num 1) = Ok demo_df) as H
    by (vm_compute; reflexivity).
  split; [exact H|]. exact (exit_cells_go_together _ _ _ _ _ _ H).
Defined.

(** X15: a trade is opened on the bar of its raw signal.  The entry bar of
    every trade carries the raw signal of the trade's direction, is marked
    in-position, and its Close is the entry price. *)
Theorem entry_follows_raw_signal data fast slow signal pip_size df :
  run_strategy data fast slow signal pip_size = Ok df →
  ∀ k t, trade_of df k = Some t →
    ∃ re, df !! entryIndex t = Some re ∧
          raw_sig re = Some (direction t) ∧
          entry_signal re = Some (direction t) ∧
          Close re = entryPrice t ∧ in_position re = true.
Proof.
  intros [rows T]%run_strategy_trace k t
    (_ & (re & He & Hek & Hd & Hp) & _)%trade_of_Some.
  exists re. split; [done|].
  destruct Hek as [Hk Hes].
  rewrite <-(entry_is_raw _ _ _ _ _ _ T He Hes).
  split; [done|]. split; [done|]. split; [done|].
  destruct (in_position_at T _ re He) as [-> _]. rewrite Hk. done.
Qed.

Lemma entry_follows_raw_signal_witness :
  run_strategy demo_signals 55 2 8 (num 1) = Ok demo_df ∧
  ∀ k t, trade_of demo_df k = Some t →
    ∃ re, demo_df !! entryIndex t = Some re ∧
          raw_sig re = Some (direction t) ∧
          entry_signal re = Some (direction t) ∧
          Close re = entryPrice t ∧ in_position re = true.
Proof.
  assert (run_strategy demo_signals 55 2 8 (num 1) = Ok demo_df) as H
    by (vm_compute; reflexivity).
  split; [exact H|]. exact (entry_follows_raw_signal _ _ _ _ _ _ H).
Defined.

(** ** Column names *)

Lemma string_length_app (s1 s2 : string) :
  String.length (s1 +:+ s2) = String.length s1 + String.length s2.
Proof.
  induction s1 as [|a s1 IH]; [done|].
  change (String a s1 +:+ s2) with (String a (s1 +:+ s2)).
  simpl. by rewrite IH.
Qed.

Lemma string_app_inj_r (t s1 s2 : string) : s1 +:+ t = s2 +:+ t → s1 = s2.
Proof.
  revert s2. induction s1 as [|a s1 IH]; intros [|b s2] H.
  - done.
  - apply (f_equal String.length) in H.
    rewrite (string_length_app (String b s2)) in H.
    change ("" +:+ t) with t in H. simpl in H. lia.
  - apply (f_equal String.length) in H.
    rewrite (string_length_app (String a s1)) in H.
    change ("" +:+ t) with t in H. simpl in H. lia.
  - change (String a (s1 +:+ t) = String b (s2 +:+ t)) in H.
    injection H as -> H. f_equal. by apply IH.
Qed.

Lemma ema_col_inj (P P' : Z) :
  "EMA_" +:+ pretty P = "EMA_" +:+ pretty P' → P = P'.
Proof. intros H%(inj (String.append "EMA_")). by apply (inj pretty). Qed.

Lemma sig_col_inj (P P' : Z) :
  "Signal_" +:+ pretty P +:+ "EMA" = "Signal_" +:+ pretty P' +:+ "EMA" →
  P = P'.
Proof.
  intros H%(inj (String.append "Signal_")).
  apply string_app_inj_r in H. by apply (inj pretty).
Qed.

(** X16: the strategy has to be given the period of the signal stage.  On
    a frame that does not already carry the column 'Signal_{slow}EMA', the
    pipeline run with a slow period different from the signal period stops
    with a ValueError, whatever the prices. *)
Theorem slow_period_must_match data P fast slow signal pip_size close :
  floats data !! "Close" = Some close →
  MACDStrategy.raw_sig_name slow ∉ columns data →
  slow ≠ P →
  pipeline data P fast slow signal pip_size = Raise ValueError.
Proof.
  intros Hclose Hno Hne. unfold pipeline.
  rewrite (process_ema_signals_unfold _ _ _ Hclose).
  case_bool_decide; [|done].
  unfold pd.ewm_mean. case_bool_decide; [done|]. simpl.
  unfold run_strategy, MACDStrategy.init.
  rewrite bool_decide_false; [done|].
  intros [_ Hin]. rewrite set_columns in Hin by apply sig_col_not_ema_col.
  apply elem_of_union in Hin as [Hin|Hin]; [done|].
  apply elem_of_union in Hin as [Hin%elem_of_singleton|Hin%elem_of_singleton].
  - by apply sig_col_not_ema_col in Hin.
  - by apply sig_col_inj in Hin.
Qed.

Lemma slow_period_must_match_witness :
  floats (bars scenario_close) !! "Close" = Some scenario_close ∧
  (MACDStrategy.raw_sig_name 89 ∉ columns (bars scenario_close)) ∧
  89%Z ≠ 2%Z ∧
  pipeline (bars scenario_close) 2 55 89 8 (num 1) = Raise ValueError.
Proof.
  assert (floats (bars scenario_close) !! "Close" = Some scenario_close) as H
    by (vm_compute; reflexivity).
  assert (MACDStrategy.raw_sig_name 89 ∉ columns (bars scenario_close)) as H2.
  { apply (bool_decide_unpack _). vm_compute. exact I. }
  assert (89%Z ≠ 2%Z) as H3 by lia.
  split; [exact H|]. split; [exact H2|]. split; [exact H3|].
  exact (slow_period_must_match _ 2 55 89 8 (num 1) _ H H2 H3).
Defined.

(** X17: signal columns of several periods accumulate.  Running the signal
    stage for a second period keeps the trend and crossover columns of the
    first period as they were. *)
Theorem periods_accumulate data P P' out out' :
  process_ema_signals data P = Ok out →
  process_ema_signals out P' = Ok out' →
  P ≠ P' →
  floats out' !! ("EMA_" +:+ pretty P) = floats out !! ("EMA_" +:+ pretty P) ∧
  labels out' !! ("Signal_" +:+ pretty P +:+ "EMA")
    = labels out !! ("Signal_" +:+ pretty P +:+ "EMA") ∧
  is_Some (floats out' !! ("EMA_" +:+ pretty P)) ∧
  is_Some (labels out' !! ("Signal_" +:+ pretty P +:+ "EMA")).
Proof.
  intros (close & ema & _ & _ & _ & ->)%process_ema_signals_inv
         (close' & ema' & _ & _ & _ & ->)%process_ema_signals_inv Hne.
  assert ("EMA_" +:+ pretty P' ≠ "EMA_" +:+ pretty P) as H1
    by (intros H%ema_col_inj; congruence).
  assert ("Signal_" +:+ pretty P' +:+ "EMA" ≠ "Signal_" +:+ pretty P +:+ "EMA")
    as H2 by (intros H%sig_col_inj; congruence).
  pose proof (sig_col_not_ema_col (pretty P' +:+ "EMA") (pretty P)) as H3.
  pose proof (sig_col_not_ema_col (pretty P +:+ "EMA") (pretty P')) as H4.
  pose proof (sig_col_not_ema_col (pretty P +:+ "EMA") (pretty P)) as H5.
  simpl.
  repeat first [rewrite lookup_delete_ne by done
               |rewrite lookup_insert_ne by done
               |rewrite lookup_delete_ne by (by apply not_eq_sym)
               |rewrite lookup_insert_ne by (by apply not_eq_sym)
               |rewrite lookup_insert_eq].
  split; [done|]. split; [done|]. split; eauto.
Qed.

Lemma periods_accumulate_witness :
  ∃ out',
    process_ema_signals (bars scenario_close) 2
      = Ok (signals_of scenario_close 2) ∧
    process_ema_signals (signals_of scenario_close 2) 3 = Ok out' ∧
    2%Z ≠ 3%Z ∧
    floats out' !! ("EMA_" +:+ pretty 2%Z)
      = floats (signals_of scenario_close 2) !! ("EMA_" +:+ pretty 2%Z).
Proof.
  assert (process_ema_signals (bars scenario_close) 2
          = Ok (signals_of scenario_close 2)) as H
    by (vm_compute; reflexivity).
  assert (2%Z ≠ 3%Z) as Hne by lia.
  eexists. split; [exact H|].
  assert (∀ A B C : Prop, A → B → (A → C) → A ∧ B ∧ C) as Hand by tauto.
  apply Hand; [vm_compute; reflexivity|exact Hne|].
  intros H'. exact (proj1 (periods_accumulate _ _ _ _ _ H H' Hne)).
Defined.

(** X18: in the full pipeline, with the strategy reading the column the
    signal stage has just written, the first bar never belongs to a trade. *)
Theorem first_bar_is_flat data P fast signal pip_size df r :
  pipeline data P fast P signal pip_size = Ok df →
  df !! 0 = Some r →
  trade_id r = None ∧ entry_signal r = None ∧ in_position r = false.
Proof.
  unfold pipeline.
  destruct (process_ema_signals data P) as [out|] eqn:Hproc; simpl; [|done].
  intros Hrun Hr.
  pose proof Hproc
    as (close & ema & Hc & _ & Hema & ->)%process_ema_signals_inv.
  destruct (ewm_mean_smoothed _ _ _ Hema) as (Hlen & _ & _).
  set (out := set_label _ _ _) in *.
  assert (floats out !! "Close" = Some close) as Hclose.
  { unfold out. simpl.
    rewrite lookup_delete_ne by apply sig_col_not_Close.
    by rewrite lookup_insert_ne by apply ema_col_not_Close. }
  assert (labels out !! MACDStrategy.raw_sig_name P
          = Some (crossings close ema)) as Hsig
    by apply lookup_insert_eq.
  destruct (run_strategy_columns _ _ _ _ _ _ _ _ Hrun Hclose Hsig)
    as [HC HR]; [by apply crossings_length|].
  destruct (run_strategy_trace _ _ _ _ _ _ Hrun) as [rows T].
  assert (raw_sig r = None) as Hraw.
  { pose proof (f_equal (.!! 0) HR) as H0.
    rewrite list_lookup_fmap, Hr in H0. simpl in H0.
    rewrite crossings_0 in H0; [by injection H0| |done].
    intros ->. apply (f_equal length) in HC.
    rewrite length_fmap in HC. apply lookup_lt_Some in Hr. simpl in HC. lia. }
  destruct (flat_rows _ _ _ _ 0 r T) as (? & ? & _ & _ & ?); [|done|done].
  intros j r' Hj Hr'. replace j with 0 in Hr' by lia. congruence.
Qed.

Lemma first_bar_is_flat_witness :
  ∃ df r,
    pipeline (bars demo_close) 2 55 2 8 (num 1) = Ok df ∧
    df !! 0 = Some r ∧
    trade_id r = None ∧ entry_signal r = None ∧ in_position r = false.
Proof.
  eexists _, _.
  assert (∀ A B C : Prop, A → B → (A → B → C) → A ∧ B ∧ C) as Hand by tauto.
  apply Hand; [vm_compute; reflexivity|vm_compute; reflexivity|].
  intros H Hr. exact (first_bar_is_flat _ _ _ _ _ _ _ H Hr).
Defined.

(** ** Simulating before the MACD columns are computed *)

Lemma scan_rows_flat pip_size rows : ∀ sc,
  in_trade sc = false →
  Forall (λ r, raw_sig r = None) rows →
  scan_rows pip_size sc rows = Ok (sc, rows).
Proof.
  induction rows as [|r rows IH]; intros sc Hin Hraw; simpl; [done|].
  apply Forall_cons in Hraw as [Hr Hrows].
  rewrite (proj2 (bar_Step pip_size sc r sc r)) by by apply step_flat.
  simpl. by rewrite IH.
Qed.

Lemma bar_without_hist pip_size sc r d :
  in_trade sc = true → position sc = Some d →
  raw_sig r ≠ Some (opposite d) → MACD_hist r = None →
  bar pip_size sc r = Raise TypeError.
Proof.
  destruct sc as [tc it ep pos], r as [c raw es xs ip pr xt ti m ms mh].
  simpl. intros -> -> Hraw ->.
  unfold bar, MACDStrategy.body, at_get, at_set. simpl.
  destruct raw as [[|]|], d; simpl in *; try done.
Qed.

Lemma init_no_hist data fast slow signal pip_size s :
  MACDStrategy.init data fast slow signal pip_size = Ok s →
  Forall (λ r, MACD_hist r = None) (MACDStrategy.df s).
Proof.
  unfold MACDStrategy.init. case_bool_decide; [|done].
  destruct (get_float data "Close") as [close|]; simpl; [|done].
  destruct (MACDStrategy.raw_column _ _) as [raw|]; simpl; [|done].
  intros [= <-]. simpl.
  revert raw. induction close as [|c close IH]; intros [|v raw]; simpl;
    constructor; eauto.
Qed.

(** X19: [calculate_macd] has to run before [simulate_trades].  On a
    strategy object fresh from the constructor the histogram cells are
    missing: as soon as the first raw signal has opened a position and the
    next bar does not carry the opposite signal, the simulation stops with
    a TypeError. *)
Theorem simulate_needs_macd data fast slow signal pip_size s i r1 d r2 :
  MACDStrategy.init data fast slow signal pip_size = Ok s →
  (∀ j r, j < i → MACDStrategy.df s !! j = Some r → raw_sig r = None) →
  MACDStrategy.df s !! i = Some r1 → raw_sig r1 = Some d →
  MACDStrategy.df s !! S i = Some r2 → raw_sig r2 ≠ Some (opposite d) →
  MACDStrategy.simulate_trades s = Raise TypeError.
Proof.
  intros Hinit Hpre Hr1 Hd Hr2 Hopp.
  pose proof (init_no_hist _ _ _ _ _ _ Hinit) as Hhist.
  rewrite simulate_trades_scan.
  pose proof (take_drop_middle _ _ _ Hr1) as Hsplit1.
  assert (drop (S i) (MACDStrategy.df s) = r2 :: drop (S (S i)) (MACDStrategy.df s))
    as Hsplit2 by (by apply drop_S).
  rewrite Hsplit2 in Hsplit1. rewrite <-Hsplit1.
  rewrite scan_rows_app, (scan_rows_flat _ (take i _)); [|done|].
  2:{ apply Forall_forall. intros r [j Hj]%list_elem_of_lookup_1.
      apply lookup_take_Some in Hj as [Hj Hlt]. by apply (Hpre j). }
  simpl.
  rewrite (proj2 (bar_Step _ MACDStrategy.scan0 r1 _ _))
    by by apply (step_enter _ _ _ d).
  simpl.
  rewrite (bar_without_hist _ _ r2 d); [done|done|done|done|].
  by apply (Forall_lookup_1 _ _ _ _ Hhist Hr2).
Qed.

Lemma simulate_needs_macd_witness :
  ∃ s r1 r2,
    MACDStrategy.init (signals_of (num <$> [10; 12; 13]%Z) 2) 55 2 8 (num 1)
      = Ok s ∧
    (∀ j r, j < 1 → MACDStrategy.df s !! j = Some r → raw_sig r = None) ∧
    MACDStrategy.df s !! 1 = Some r1 ∧ raw_sig r1 = Some long ∧
    MACDStrategy.df s !! 2 = Some r2 ∧ raw_sig r2 ≠ Some (opposite long) ∧
    MACDStrategy.simulate_trades s = Raise TypeError.
Proof.
  assert (∀ A B : Prop, A → (A → B) → A ∧ B) as Hand by tauto.
  eexists _, _, _.
  apply Hand; [vm_compute; reflexivity|]. intros Hinit.
  apply Hand.
  { intros j r Hj. replace j with 0 by lia. vm_compute. by intros [= <-]. }
  intros Hpre.
  apply Hand; [vm_compute; reflexivity|]. intros Hr1.
  apply Hand; [vm_compute; reflexivity|]. intros Hd.
  apply Hand; [vm_compute; reflexivity|]. intros Hr2.
  apply Hand; [vm_compute; intros H; discriminate H|]. intros Hopp.
  exact (simulate_needs_macd _ _ _ _ _ _ 1 _ long _ Hinit Hpre Hr1 Hd Hr2 Hopp).
Defined.

(** ** The error of the recorded profit *)

Section rounding_error.
Local Open Scope Qc_scope.

Lemma round_half_even_error q :
  (q - (1 # 2) <= inject_Z (round_half_even q))%Q ∧
  (inject_Z (round_half_even q) <= q + (1 # 2))%Q.
Proof.
  unfold round_half_even, Qle, Qminus, Qplus, Qopp, inject_Z.
  destruct q as [n d]. simpl.
  pose proof (Z.div_mod n (Zpos d) ltac:(lia)) as Hdm.
  pose proof (Z.mod_pos_bound n (Zpos d) ltac:(lia)) as Hb.
  set (f := (n `div` Zpos d)%Z) in *. set (r := (n `mod` Zpos d)%Z) in *.
  rewrite !Pos2Z.inj_mul.
  destruct (Z.ltb_spec (2 * r) (Zpos d));
    [|destruct (Z.ltb_spec (Zpos d) (2 * r)); [|destruct (Z.even f)]].
  all: split; nia.
Qed.

Lemma round_error x :
  x - num 1 / num 200000 ≤ round x 5 ∧ round x 5 ≤ x + num 1 / num 200000.
Proof.
  unfold round. change (10 ^ Z.of_nat 5)%Z with 100000%Z.
  destruct (round_half_even_error (this (x * num 100000))) as [Hlo Hhi].
  set (z := round_half_even _) in *.
  rewrite this_mult, this_num in Hlo, Hhi.
  change (inject_Z 100000) with (100000 # 1)%Q in *.
  split.
  - change (this (x - num 1 / num 200000) <= this (num z / num 100000))%Q.
    rewrite this_minus, !this_div, !this_num.
    change (inject_Z 1 / inject_Z 200000)%Q with (1 # 200000)%Q.
    change (inject_Z z / inject_Z 100000)%Q
      with (inject_Z z * (1 # 100000))%Q.
    lra.
  - change (this (num z / num 100000) <= this (x + num 1 / num 200000))%Q.
    rewrite this_plus, !this_div, !this_num.
    change (inject_Z 1 / inject_Z 200000)%Q with (1 # 200000)%Q.
    change (inject_Z z / inject_Z 100000)%Q
      with (inject_Z z * (1 # 100000))%Q.
    lra.
Qed.

End rounding_error.

Lemma closed_trade_profit pip_size rows df st k t x :
  Trace pip_size rows df st →
  trade_of df k = Some t → exitIndex t = Some x →
  ∃ rx, df !! x = Some rx ∧ exitPrice t = Some (Close rx) ∧
        profitPips t = Some (round (move t (Close rx) / pip_size)%Qc 5).
Proof.
  intros T (_ & (re & He & Hek & Hd & Hep) & Hx)%trade_of_Some Hxi.
  rewrite Hxi in Hx. destruct Hx as (rx & Hrx & Hxk & Hxp & _ & Hpr).
  destruct (exit_at T x rx k Hrx Hxk)
    as (_ & Htc & _ & _ & how & entry & _ & Hentry & Hprofit & _).
  pose proof (row_index T x rx Hrx) as Hn.
  destruct (open_state T x k _ re ltac:(lia) Htc He Hek) as [Hpos Hprice].
  rewrite Hd in Hpos. rewrite Hprice in Hentry. injection Hentry as <-.
  rewrite Hpos, <-Hep in Hprofit.
  exists rx. split; [done|]. split; [done|].
  rewrite Hpr, Hprofit. unfold move. by destruct (direction t).
Qed.

(** X20: the recorded profit is the move of the trade in pips up to half
    a unit of the fifth decimal.  For every closed trade (pip size > 0)
    the recorded profit is a whole number of hundred-thousandths and
    differs from the exact quotient move / pip_size by at most 0.000005. *)
Theorem profit_rounding_error data fast slow signal pip_size df :
  run_strategy data fast slow signal pip_size = Ok df →
  (0 < pip_size)%Qc →
  ∀ k t x, trade_of df k = Some t → exitIndex t = Some x →
    ∃ xp p,
      exitPrice t = Some xp ∧ profitPips t = Some p ∧
      (∃ z, p = num z / num 100000)%Qc ∧
      (move t xp / pip_size - num 1 / num 200000 ≤ p)%Qc ∧
      (p ≤ move t xp / pip_size + num 1 / num 200000)%Qc.
Proof.
  intros [rows T]%run_strategy_trace Hpip k t x Ht Hx.
  destruct (closed_trade_profit _ _ _ _ _ _ _ T Ht Hx)
    as (rx & _ & Hxp & Hp).
  eexists _, _. split; [exact Hxp|]. split; [exact Hp|].
  split; [by eexists|]. apply round_error.
Qed.

Lemma profit_rounding_error_witness :
  ∃ t xp p,
    run_strategy demo_signals 55 2 8 (num 1) = Ok demo_df ∧
    (0 < num 1)%Qc ∧
    trade_of demo_df 2 = Some t ∧ exitIndex t = Some 6 ∧
    exitPrice t = Some xp ∧ profitPips t = Some p ∧
    (∃ z, p = num z / num 100000)%Qc ∧
    (move t xp / num 1 - num 1 / num 200000 ≤ p)%Qc ∧
    (p ≤ move t xp / num 1 + num 1 / num 200000)%Qc.
Proof.
  assert (run_strategy demo_signals 55 2 8 (num 1) = Ok demo_df) as H
    by (vm_compute; reflexivity).
  assert (0 < num 1)%Qc as Hpip by reflexivity.
  assert (∃ t, trade_of demo_df 2 = Some t ∧ exitIndex t = Some 6)
    as (t & Ht & Hx) by (eexists; split; vm_compute; reflexivity).
  destruct (profit_rounding_error _ _ _ _ _ _ H Hpip 2 t 6 Ht Hx)
    as (xp & p & Hrest).
  exists t, xp, p. exact (conj H (conj Hpip (conj Ht (conj Hx Hrest)))).
Defined.

(** ** Signals while flat *)

Lemma flat_signal_enters pip_size rows df st i r d :
  Trace pip_size rows df st → df !! i = Some r →
  in_trade (st i) = false → raw_sig r = Some d → entry_signal r = Some d.
Proof. intros T Hr Hin Hd. step_of T st Hr; congruence. Qed.

Lemma signal_has_id pip_size rows df st i r d :
  Trace pip_size rows df st → df !! i = Some r →
  raw_sig r = Some d → is_Some (trade_id r).
Proof. intros T Hr Hd. step_of T st Hr; eauto; congruence. Qed.

Lemma flat_after pip_size rows df st j p :
  Trace pip_size rows df st → df !! j = Some p →
  in_trade (st (S j)) = false ↔ trade_id p = None ∨ is_Some (exit_signal p).
Proof.
  intros T Hp. step_of T st Hp.
  all: split; [intros ?|intros [?|[? ?]]]; eauto; congruence.
Qed.

(** X21: a raw signal is never left outside a trade, and it opens a new
    trade exactly when the strategy is flat.  A bar that carries a raw
    signal is marked in-position; it is an entry bar, with the entry
    signal equal to the raw signal, exactly when it is the first bar or
    the bar before it has no trade id or is an exit bar. *)
Theorem signal_while_flat_opens_trade data fast slow signal pip_size df :
  run_strategy data fast slow signal pip_size = Ok df →
  ∀ i r d, df !! i = Some r → raw_sig r = Some d →
    in_position r = true ∧
    (entry_signal r = Some d ↔
       ∀ j p, i = S j → df !! j = Some p →
              trade_id p = None ∨ is_Some (exit_signal p)).
Proof.
  intros [rows T]%run_strategy_trace i r d Hr Hd.
  destruct (in_position_at T i r Hr) as [-> _].
  split.
  { apply bool_decide_eq_true. by eapply signal_has_id. }
  split.
  - intros He j p -> Hp. apply (flat_after _ _ _ _ _ _ T Hp).
    destruct (trade_id r) as [k|] eqn:Hk.
    + assert (entry_row k r) as Hek by (split; [done|rewrite He; eauto]).
      by destruct (entry_at T _ r k Hr Hek) as (? & _).
    + destruct (no_id_at T _ r Hr Hk) as (_ & _ & Hne & _). congruence.
  - intros Hprev. apply (flat_signal_enters _ _ _ _ _ _ _ T Hr); [|done].
    destruct i as [|j]; [by rewrite (trace_start _ _ _ _ T)|].
    pose proof (row_index T _ r Hr) as Hn.
    destruct (df_lookup T j) as [p Hp]; [lia|].
    apply (flat_after _ _ _ _ _ _ T Hp). by apply (Hprev j).
Qed.

Lemma signal_while_flat_opens_trade_witness :
  ∃ r,
    run_strategy demo_signals 55 2 8 (num 1) = Ok demo_df ∧
    demo_df !! 8 = Some r ∧ raw_sig r = Some short ∧
    in_position r = true ∧
    (entry_signal r = Some short ↔
       ∀ j p, 8 = S j → demo_df !! j = Some p →
              trade_id p = None ∨ is_Some (exit_signal p)).
Proof.
  assert (run_strategy demo_signals 55 2 8 (num 1) = Ok demo_df) as H
    by (vm_compute; reflexivity).
  assert (∀ A B C : Prop, A → B → (A → B → C) → A ∧ B ∧ C) as Hand by tauto.
  eexists. split; [exact H|].
  apply Hand; [vm_compute; reflexivity|vm_compute; reflexivity|].
  intros Hr Hd.
  exact (signal_while_flat_opens_trade _ _ _ _ _ _ H 8 _ short Hr Hd).
Defined.

(** ** Crossover events alternate *)

Section alternation.
Context (close ema : list Qc).
Context (Hlen : length ema = length close).

Lemma crossing_sides i d :
  crossings close ema !! i = Some (Some d) →
  ∃ m c t pc pt,
    i = S m ∧ close !! S m = Some c ∧ ema !! S m = Some t ∧
    close !! m = Some pc ∧ ema !! m = Some pt ∧
    on_side d c t ∧ ¬ on_side d pc pt.
Proof.
  intros Hi. pose proof (lookup_lt_Some _ _ _ Hi) as Hlt.
  rewrite crossings_length in Hlt by done.
  destruct i as [|m].
  { rewrite crossings_0 in Hi; [done| |done]. intros E. rewrite E in Hlt.
    simpl in Hlt. lia. }
  destruct (lookup_lt_is_Some_2 close (S m) Hlt) as [c Hc].
  destruct (lookup_lt_is_Some_2 ema (S m) ltac:(lia)) as [t Ht].
  destruct (lookup_lt_is_Some_2 close m ltac:(lia)) as [pc Hpc].
  destruct (lookup_lt_is_Some_2 ema m ltac:(lia)) as [pt Hpt].
  exists m, c, t, pc, pt. do 5 (split; [done|]).
  rewrite (crossings_S _ _ _ _ _ _ _ Hc Ht Hpc Hpt) in Hi.
  repeat case_bool_decide; simpl in *; simplify_eq; simpl.
  all: split; [done|]; intros Hs; by eapply Qclt_not_le.
Qed.

Lemma crossing_made m d c t pc pt :
  close !! S m = Some c → ema !! S m = Some t →
  close !! m = Some pc → ema !! m = Some pt →
  on_side d c t → on_side (opposite d) pc pt →
  crossings close ema !! S m = Some (Some d).
Proof.
  intros Hc Ht Hpc Hpt Hs Hp.
  rewrite (crossings_S _ _ _ _ _ _ _ Hc Ht Hpc Hpt).
  destruct d; simpl in *.
  - rewrite (bool_decide_false (c < t)%Qc)
      by (intros ?; by eapply Qclt_asym).
    rewrite (bool_decide_true (t < c)%Qc) by done.
    by rewrite (bool_decide_true (pc ≤ pt)%Qc) by by apply Qclt_le_weak.
  - rewrite (bool_decide_true (c < t)%Qc) by done.
    by rewrite (bool_decide_true (pt ≤ pc)%Qc) by by apply Qclt_le_weak.
Qed.

Lemma side_cases d (c t : Qc) : c ≠ t → on_side d c t ∨ on_side (opposite d) c t.
Proof.
  intros Hne. destruct (Qc_dec c t) as [[Hlt|Hgt]|Heq]; [| |done];
    destruct d; simpl; auto.
Qed.

Lemma sides_exclusive d (c t : Qc) :
  on_side d c t → on_side (opposite d) c t → False.
Proof. destruct d; simpl; intros H1 H2; by eapply Qclt_asym. Qed.

Context (Hties : ∀ i c t,
           close !! S i = Some c → ema !! S i = Some t → c ≠ t).

Lemma first_switch d n : ∀ i c t c' t',
  close !! i = Some c → ema !! i = Some t → on_side d c t →
  close !! (i + S n) = Some c' → ema !! (i + S n) = Some t' →
  on_side (opposite d) c' t' →
  ∃ k, i < S k ≤ i + S n ∧ crossings close ema !! S k = Some (Some (opposite d)).
Proof.
  induction n as [|n IH]; intros i c t c' t' Hc Ht Hs Hc' Ht' Hs'.
  - exists i. split; [lia|].
    replace (i + 1) with (S i) in Hc', Ht' by lia.
    apply (crossing_made i _ c' t' c t); try done.
    destruct d; exact Hs.
  - pose proof (lookup_lt_Some _ _ _ Hc') as Hn.
    destruct (lookup_lt_is_Some_2 close (S i) ltac:(lia)) as [c1 Hc1].
    destruct (lookup_lt_is_Some_2 ema (S i) ltac:(lia)) as [t1 Ht1].
    destruct (side_cases d c1 t1 (Hties _ _ _ Hc1 Ht1)) as [Hsame|Hopp].
    + replace (i + S (S n)) with (S i + S n) in Hc', Ht' by lia.
      destruct (IH (S i) c1 t1 c' t' Hc1 Ht1 Hsame Hc' Ht' Hs')
        as (k & Hk & Hev).
      exists k. split; [lia|done].
    + exists i. split; [lia|].
      apply (crossing_made i _ c1 t1 c t); try done.
      destruct d; exact Hs.
Qed.

Lemma crossings_alternate i j d :
  i < j →
  crossings close ema !! i = Some (Some d) →
  crossings close ema !! j = Some (Some d) →
  ∃ k, i < k < j ∧ crossings close ema !! k = Some (Some (opposite d)).
Proof.
  intros Hij (m & c & t & pc & pt & -> & Hc & Ht & _ & _ & Hs & _)%crossing_sides
    (m' & c' & t' & pc' & pt' & -> & _ & _ & Hpc' & Hpt' & _ & Hns')%crossing_sides.
  destruct m' as [|m']; [lia|].
  destruct (side_cases d pc' pt' (Hties _ _ _ Hpc' Hpt')) as [?|Hopp]; [done|].
  assert (m ≠ m') as Hne.
  { intros <-. simplify_eq. by eapply sides_exclusive. }
  destruct (first_switch d (m' - m - 1) (S m) c t pc' pt') as (k & Hk & Hev);
    try done.
  1,2: by replace (S m + S (m' - m - 1)) with (S m') by lia.
  exists (S k). split; [lia|done].
Qed.

End alternation.

(** X22: crossover events alternate when the price never sits exactly on
    the trend.  If Close differs from the trend value on every bar after
    the first, then between two events of the same direction there is an
    event of the opposite direction.  (On the first bar the trend is seeded
    with the price, so the two always agree there.) *)
Theorem crossovers_alternate data P out close trend ev :
  process_ema_signals data P = Ok out →
  floats data !! "Close" = Some close →
  floats out !! ("EMA_" +:+ pretty P) = Some trend →
  labels out !! ("Signal_" +:+ pretty P +:+ "EMA") = Some ev →
  (∀ i c t, close !! S i = Some c → trend !! S i = Some t → c ≠ t) →
  ∀ i j d, i < j → ev !! i = Some (Some d) → ev !! j = Some (Some d) →
    ∃ k, i < k < j ∧ ev !! k = Some (Some (opposite d)).
Proof.
  intros (close' & ema & Hclose' & _ & Hema & ->)%process_ema_signals_inv
    Hclose.
  rewrite Hclose in Hclose'. injection Hclose' as <-.
  simpl. rewrite lookup_delete_ne by apply sig_col_not_ema_col.
  rewrite !lookup_insert_eq. intros [= <-] [= <-] Hties.
  destruct (ewm_mean_smoothed _ _ _ Hema) as (Hlen & _ & _).
  by apply crossings_alternate.
Qed.

Lemma crossovers_alternate_witness :
  ∃ trend ev k,
    process_ema_signals (bars demo_close) 2 = Ok demo_signals ∧
    floats (bars demo_close) !! "Close" = Some demo_close ∧
    floats demo_signals !! ("EMA_" +:+ pretty 2%Z) = Some trend ∧
    labels demo_signals !! ("Signal_" +:+ pretty 2%Z +:+ "EMA") = Some ev ∧
    (∀ i c t, demo_close !! S i = Some c → trend !! S i = Some t → c ≠ t) ∧
    1 < 5 ∧ ev !! 1 = Some (Some long) ∧ ev !! 5 = Some (Some long) ∧
    1 < k < 5 ∧ ev !! k = Some (Some (opposite long)).
Proof.
  assert (process_ema_signals (bars demo_close) 2 = Ok demo_signals) as H
    by (vm_compute; reflexivity).
  assert (floats (bars demo_close) !! "Close" = Some demo_close) as Hc
    by (vm_compute; reflexivity).
  destruct (floats demo_signals !! ("EMA_" +:+ pretty 2%Z)) as [trend|] eqn:Ht;
    [|vm_compute in Ht; discriminate Ht].
  destruct (labels demo_signals !! ("Signal_" +:+ pretty 2%Z +:+ "EMA"))
    as [ev|] eqn:He; [|vm_compute in He; discriminate He].
  assert (∀ i c t, demo_close !! S i = Some c → trend !! S i = Some t → c ≠ t)
    as Hties.
  { vm_compute in Ht. injection Ht as <-. intros i c t.
    do 11 (destruct i as [|i]; [intros [= <-] [= <-]; intros [=]|]).
    intros [=]. }
  assert (1 < 5) as Hlt by lia.
  assert (ev !! 1 = Some (Some long)) as H1
    by (vm_compute in He; injection He as <-; reflexivity).
  assert (ev !! 5 = Some (Some long)) as H5
    by (vm_compute in He; injection He as <-; reflexivity).
  destruct (crossovers_alternate _ _ _ _ _ _ H Hc Ht He Hties 1 5 long
              Hlt H1 H5) as (k & Hk & Hev).
  exists trend, ev, k.
  exact (conj H (conj Hc (conj eq_refl (conj eq_refl (conj Hties
           (conj Hlt (conj H1 (conj H5 (conj Hk Hev))))))))).
Defined.

(** ** The whole chain *)

(** X23: the chain of the two stages completes on well-formed input.  On a
    frame with the four price columns and a numeric Close, with the
    strategy's slow period equal to the trend period and all periods at
    least 1, the pipeline raises nothing and returns one row per input
    bar, in order, with the input's Close. *)
Theorem pipeline_outcome data P fast signal pip_size close :
  floats data !! "Close" = Some close →
  EMASignal.required_cols ⊆ columns data →
  (1 ≤ P)%Z → (1 ≤ fast)%Z → (1 ≤ signal)%Z →
  ∃ df, pipeline data P fast P signal pip_size = Ok df ∧
        Close <$> df = close.
Proof.
  intros Hclose Hcols HP Hfast Hsignal. unfold pipeline.
  rewrite (process_ema_signals_unfold _ _ _ Hclose).
  rewrite bool_decide_true by done.
  destruct (pd.ewm_mean P close) as [ema|] eqn:Hema;
    [|by rewrite ewm_mean_from_1 in Hema].
  simpl.
  destruct (ewm_mean_smoothed _ _ _ Hema) as (Hlen & _ & _).
  set (out := set_label _ _ _).
  assert (floats out !! "Close" = Some close) as Hclose'.
  { unfold out. simpl.
    rewrite lookup_delete_ne by apply sig_col_not_Close.
    by rewrite lookup_insert_ne by apply ema_col_not_Close. }
  assert (labels out !! MACDStrategy.raw_sig_name P
          = Some (crossings close ema)) as Hsig
    by apply lookup_insert_eq.
  destruct (run_strategy_total out fast P signal pip_size close)
    as [df Hrun]; try done.
  { apply elem_of_union_r, elem_of_dom. eauto. }
  exists df. split; [done|].
  destruct (run_strategy_columns _ _ _ _ _ _ _ _ Hrun Hclose' Hsig)
    as [HC _]; [by apply crossings_length|done].
Qed.

Lemma pipeline_outcome_witness :
  floats (bars demo_close) !! "Close" = Some demo_close ∧
  EMASignal.required_cols ⊆ columns (bars demo_close) ∧
  (1 ≤ 89)%Z ∧ (1 ≤ 55)%Z ∧ (1 ≤ 8)%Z ∧
  ∃ df, pipeline (bars demo_close) 89 55 89 8 (Q2Qc (1 # 10000)) = Ok df ∧
        Close <$> df = demo_close.
Proof.
  assert (floats (bars demo_close) !! "Close" = Some demo_close) as H
    by (vm_compute; reflexivity).
  assert (EMASignal.required_cols ⊆ columns (bars demo_close)) as H2.
  { apply (bool_decide_unpack _). vm_compute. exact I. }
  assert (1 ≤ 89)%Z as H3 by lia.
  assert (1 ≤ 55)%Z as H4 by lia.
  assert (1 ≤ 8)%Z as H5 by lia.
  split; [exact H|]. split; [exact H2|]. split; [exact H3|].
  split; [exact H4|]. split; [exact H5|].
  exact (pipeline_outcome _ 89 55 8 (Q2Qc (1 # 10000)) _ H H2 H3 H4 H5).
Defined.
